(** * transcribeRx: the recording-session orchestrator of the client

    A shallow embedding of the parts of the React component [App] that own
    a recording session: the WebSocket message handler, the debounced
    disease-analysis scheduler, the similarity gate, the merge of detections
    and [stopRecording].

    Conventions of the embedding.
    - A JavaScript string is a [string]: a sequence of code units, each below
      256 (the Latin-1 range of JavaScript's UTF-16 strings).
    - React state and refs are fields of one record, [AppState]; a state
      setter is a function on that record.
    - Everything the component does to the outside world (alerts, socket
      calls, timers, HTTP requests) is appended to the [effects] of the
      state, oldest first.
    - A closure captures the [session] of the render that created it; the
      captured value is an explicit argument.
    - An awaited HTTP response is an input of the function that awaits it. *)

From Stdlib Require Import Ascii String QArith Sorted.
From Stdlib Require DecimalString DecimalNat.
From stdpp Require Import gmap strings list.

Local Open Scope string_scope.
Local Open Scope list_scope.

(** ** Strings as the engine sees them *)

Module JsString.

(** [\s] of a regular expression, and the characters [trim] removes,
    restricted to code units below 256: TAB, LF, VT, FF, CR, SPACE, NBSP. *)
Definition is_whitespace (c : ascii) : bool :=
  let n := nat_of_ascii c in
  ((9 <=? n) && (n <=? 13) || (n =? 32) || (n =? 160))%nat.

(** [String.prototype.toLowerCase] on one code unit below 256:
    A-Z, and the Latin-1 capitals U+00C0-U+00DE except the sign U+00D7. *)
Definition lower_char (c : ascii) : ascii :=
  let n := nat_of_ascii c in
  if ((65 <=? n) && (n <=? 90)
      || (192 <=? n) && (n <=? 222) && negb (n =? 215))%nat
  then ascii_of_nat (n + 32) else c.

Fixpoint toLowerCase (s : string) : string :=
  match s with
  | EmptyString => EmptyString
  | String c r => String (lower_char c) (toLowerCase r)
  end.

(** A string is truthy when it is not empty. *)
Definition truthy (s : string) : bool :=
  match s with EmptyString => false | _ => true end.

Definition snoc (s : string) (c : ascii) : string := s +:+ String c EmptyString.

(** [s.split(' ')]: cut at every single space; [acc] is the piece being
    read. The empty string gives one empty piece. *)
Fixpoint split_space_from (acc s : string) : list string :=
  match s with
  | EmptyString => [acc]
  | String c r =>
      if Ascii.eqb c " " then acc :: split_space_from EmptyString r
      else split_space_from (snoc acc c) r
  end.

Definition split_space (s : string) : list string :=
  split_space_from EmptyString s.

(** [s.split(/\s+/)]: cut at every maximal run of whitespace; [in_ws]
    says that the previous code unit was whitespace. A run at either end
    leaves an empty piece there. *)
Fixpoint split_ws_from (acc : string) (in_ws : bool) (s : string) : list string :=
  match s with
  | EmptyString => [acc]
  | String c r =>
      if is_whitespace c then
        if in_ws then split_ws_from EmptyString true r
        else acc :: split_ws_from EmptyString true r
      else split_ws_from (snoc acc c) false r
  end.

Definition split_ws (s : string) : list string :=
  split_ws_from EmptyString false s.

(** [s.trim()] is empty exactly when every code unit is whitespace. *)
Fixpoint all_whitespace (s : string) : bool :=
  match s with
  | EmptyString => true
  | String c r => is_whitespace c && all_whitespace r
  end.

(** [parts.join(sep)] *)
Fixpoint join (sep : string) (parts : list string) : string :=
  match parts with
  | [] => EmptyString
  | [p] => p
  | p :: rest => p +:+ sep +:+ join sep rest
  end.

Definition newline : string := String (ascii_of_nat 10) EmptyString.
Definition tab : string := String (ascii_of_nat 9) EmptyString.

End JsString.

Import JsString.

(** ** The similarity gate *)

Abbreviation wordset := (gset string).

Definition words_of (t : string) : wordset :=
  list_to_set (split_ws (toLowerCase t)).

(** [calculateSimilarity]. The quotient of the two sizes is kept exact, as
    a rational, where the source has the double nearest to it. Nothing is
    lost for the comparison with 0.85: the quotient [17/20] itself rounds to
    the double of the literal, and any other quotient [i/u] lies at least
    [1/(20 u)] away from it, far more than the rounding of a double for any
    number [u] of words a text can hold. *)
Definition calculateSimilarity (text1 text2 : string) : Q :=
  if negb (truthy text1) || negb (truthy text2) then 0%Q
  else
    let words1 := words_of text1 in
    let words2 := words_of text2 in
    let intersection : wordset := filter (λ x, x ∈ words2) words1 in
    let union : wordset := words1 ∪ words2 in
    if (0 <? size union)%nat
    then (Z.of_nat (size intersection) # Pos.of_nat (size union))%Q
    else 0%Q.

(** The Jaccard index of two sets, as the specification words it. *)
Definition jaccard (A B : wordset) : Q :=
  (Z.of_nat (size (A ∩ B)) # Pos.of_nat (size (A ∪ B)))%Q.

(** ** Inbound messages and their formatting *)

(** One entry of [data.words]. A missing [speaker_tag] is [None]. *)
Record Word := { word : string; speaker_tag : option string }.

(** A parsed inbound JSON message [{text, words?, is_final, error?}]; a
    missing field is [None], a missing [is_final] is [false]. *)
Record Message := {
  error : option string;
  text : option string;
  words : option (list Word);
  is_final : bool
}.

Definition truthy_field (f : option string) : bool :=
  match f with Some s => truthy s | None => false end.

(** [word.speaker_tag || 'SPEAKER_1'] *)
Definition speaker_of (w : Word) : string :=
  match speaker_tag w with
  | Some t => if truthy t then t else "SPEAKER_1"
  | None => "SPEAKER_1"
  end.

Module JsObject.

(** The own properties of [speakerGroups], in the order of creation. *)
Definition t := list (string * list string).

(** The names every object literal inherits from [Object.prototype]; the
    value found under each is a function or an object, hence truthy, and
    has no [push]. *)
Definition prototype_keys : list string :=
  [ "constructor"; "hasOwnProperty"; "isPrototypeOf";
    "propertyIsEnumerable"; "toLocaleString"; "toString"; "valueOf";
    "__defineGetter__"; "__defineSetter__"; "__lookupGetter__";
    "__lookupSetter__"; "__proto__" ].

Definition inherited (k : string) : bool :=
  bool_decide (k ∈ prototype_keys).

Fixpoint own (o : t) (k : string) : option (list string) :=
  match o with
  | [] => None
  | (k', v) :: r => if String.eqb k' k then Some v else own r k
  end.

Fixpoint set (o : t) (k : string) (v : list string) : t :=
  match o with
  | [] => [(k, v)]
  | (k', v') :: r =>
      if String.eqb k' k then (k', v) :: r else (k', v') :: set r k v
  end.

Definition digit (c : ascii) : option N :=
  let n := nat_of_ascii c in
  if ((48 <=? n) && (n <=? 57))%nat then Some (N.of_nat (n - 48)) else None.

Fixpoint decimal (acc : N) (s : string) : option N :=
  match s with
  | EmptyString => Some acc
  | String c r =>
      match digit c with
      | Some d => decimal (10 * acc + d)%N r
      | None => None
      end
  end.

(** A key is an array index when it is the canonical decimal form of an
    integer between 0 and 2^32 - 2. *)
Definition array_index (k : string) : option N :=
  match k with
  | EmptyString => None
  | String "0" EmptyString => Some 0%N
  | String "0" _ => None
  | _ =>
      if (String.length k <=? 10)%nat then
        match decimal 0 k with
        | Some n => if (n <=? 4294967294)%N then Some n else None
        | None => None
        end
      else None
  end.

Fixpoint insert_index (e : N * (string * list string))
    (l : list (N * (string * list string))) : list (N * (string * list string)) :=
  match l with
  | [] => [e]
  | e' :: r => if (e.1 <=? e'.1)%N then e :: l else e' :: insert_index e r
  end.

Definition with_index (e : string * list string) : option (N * (string * list string)) :=
  match array_index e.1 with Some n => Some (n, e) | None => None end.

(** [Object.entries(o)]: the array-index keys in ascending numeric order,
    then the other keys in the order of creation. *)
Definition entries (o : t) : list (string * list string) :=
  (snd <$> foldr insert_index [] (omap with_index o))
  ++ filter (λ e, array_index e.1 = None) o.

End JsObject.

(** The callback of [data.words.forEach]. [None] is the [TypeError] raised
    by [speakerGroups[speaker].push] when the tag names an inherited
    member: the lookup finds it, so no array is created. *)
Definition group_word (o : JsObject.t) (w : Word) : option JsObject.t :=
  let speaker := speaker_of w in
  match JsObject.own o speaker with
  | Some ws => Some (JsObject.set o speaker (ws ++ [word w]))
  | None =>
      if JsObject.inherited speaker then None
      else Some (JsObject.set o speaker [word w])
  end.

Fixpoint group_words (o : JsObject.t) (ws : list Word) : option JsObject.t :=
  match ws with
  | [] => Some o
  | w :: r =>
      match group_word o w with
      | Some o' => group_words o' r
      | None => None
      end
  end.

Definition speakerLabel (speaker : string) : string :=
  if String.eqb speaker "SPEAKER_2" then "Patient" else "Doctor".

Definition render_group (e : string * list string) : string :=
  speakerLabel e.1 +:+ ": " +:+ join " " e.2.

(** [formattedText] of the message handler, for the raw text [raw]. *)
Definition formatText (raw : string) (ws : option (list Word)) : option string :=
  match ws with
  | Some (w :: r) =>
      match group_words [] (w :: r) with
      | Some speakerGroups =>
          Some (join newline (render_group <$> JsObject.entries speakerGroups))
      | None => None
      end
  | _ => Some raw
  end.

(** ** Detections and their merge *)

Inductive Severity := low | medium | high.

Record DiseaseHighlight := {
  disease : string;
  disease_name : option string;
  icd10_code : option string;
  confidence : Q;
  severity : Severity;
  position : nat * nat;
  supporting_symptoms : option (list string)
}.

(** The updater passed to [setDiseases] in [detectDiseases]:
    [existing] is a [Set] of the names in [prev], a missing name being the
    value [undefined], here [None]. *)
Definition merge (prev incoming : list DiseaseHighlight) : list DiseaseHighlight :=
  let existing : gset (option string) := list_to_set (disease_name <$> prev) in
  let newDetections := filter (λ d, disease_name d ∉ existing) incoming in
  prev ++ newDetections.

(** ** State of the component and its effects *)

Record Session := { session_id : string }.

Record Report := {
  subjective : string; objective : string; assessment : string; plan : string;
  pdf_url : option string
}.

Record Recommendation := {
  recommendation : string; category : string; priority : string; rationale : string
}.

(** One element of [detected_diseases] in the two generation requests. *)
Record DetectedDisease := {
  dd_name : string; dd_icd10 : option string; dd_confidence : Q; dd_severity : Severity
}.

Inductive ReadyState := CONNECTING | OPEN | CLOSING | CLOSED.

(** The socket of [wsRef], with the session its handlers have captured. *)
Record WebSocket := { readyState : ReadyState; ws_session : Session }.

(** The two audio nodes of [audioNodesRef]; [false] is [null]. *)
Record AudioNodes := { source : bool; processor : bool }.

(** A pending [window.setTimeout] of the scheduler: its callback has
    captured [text] and the [detectDiseases] of the same render. *)
Record Timer := {
  timer_id : positive;
  timer_ms : nat;
  timer_text : string;
  timer_session : option Session
}.

Inductive Effect :=
| Alert (message : string)
| SourceDisconnect
| ProcessorDisconnect
| WsSend (data : string)
| WsClose (code : nat) (reason : string)
| ClearTimeout (id : positive)
| SetTimeout (id : positive) (ms : nat)
| PostAnalyze (sid transcript : string)
| PostSoapGenerate (sid transcript : string) (detected : list DetectedDisease)
    (specialty : string)
| PostRecommendations (sid transcript : string) (detected : list DetectedDisease)
    (soap_note : option Report).

Record AppState := {
  session : option Session;
  diseases : list DiseaseHighlight;
  liveTranscript : string;
  liveTranscriptHistory : list string;
  isConnected : bool;
  isLiveTranscribing : bool;
  isRecording : bool;
  loading : bool;
  soapNote : option Report;
  recommendations : list Recommendation;
  wsRef : option WebSocket;
  audioNodesRef : option AudioNodes;
  diseaseDetectionTimerRef : option positive;
  lastDetectedTextRef : string;
  timers : list Timer;
  nextTimerId : positive;
  effects : list Effect
}.

(** The component as mounted: the initial values of [useState] and [useRef]. *)
Definition initial : AppState := {|
  session := None; diseases := []; liveTranscript := "";
  liveTranscriptHistory := []; isConnected := false;
  isLiveTranscribing := false; isRecording := false; loading := false;
  soapNote := None; recommendations := []; wsRef := None;
  audioNodesRef := None; diseaseDetectionTimerRef := None;
  lastDetectedTextRef := ""; timers := []; nextTimerId := 1%positive;
  effects := []
|}.

(** The state setters of React, the assignments to the [current] of each
    ref, and the updates of the browser side of the state. *)

Definition setSession v (st : AppState) : AppState :=
  {| session := v; diseases := diseases st;
     liveTranscript := liveTranscript st;
     liveTranscriptHistory := liveTranscriptHistory st;
     isConnected := isConnected st;
     isLiveTranscribing := isLiveTranscribing st;
     isRecording := isRecording st; loading := loading st;
     soapNote := soapNote st; recommendations := recommendations st;
     wsRef := wsRef st; audioNodesRef := audioNodesRef st;
     diseaseDetectionTimerRef := diseaseDetectionTimerRef st;
     lastDetectedTextRef := lastDetectedTextRef st; timers := timers st;
     nextTimerId := nextTimerId st; effects := effects st |}.

Definition setDiseases v (st : AppState) : AppState :=
  {| session := session st; diseases := v;
     liveTranscript := liveTranscript st;
     liveTranscriptHistory := liveTranscriptHistory st;
     isConnected := isConnected st;
     isLiveTranscribing := isLiveTranscribing st;
     isRecording := isRecording st; loading := loading st;
     soapNote := soapNote st; recommendations := recommendations st;
     wsRef := wsRef st; audioNodesRef := audioNodesRef st;
     diseaseDetectionTimerRef := diseaseDetectionTimerRef st;
     lastDetectedTextRef := lastDetectedTextRef st; timers := timers st;
     nextTimerId := nextTimerId st; effects := effects st |}.

Definition setLiveTranscript v (st : AppState) : AppState :=
  {| session := session st; diseases := diseases st; liveTranscript := v;
     liveTranscriptHistory := liveTranscriptHistory st;
     isConnected := isConnected st;
     isLiveTranscribing := isLiveTranscribing st;
     isRecording := isRecording st; loading := loading st;
     soapNote := soapNote st; recommendations := recommendations st;
     wsRef := wsRef st; audioNodesRef := audioNodesRef st;
     diseaseDetectionTimerRef := diseaseDetectionTimerRef st;
     lastDetectedTextRef := lastDetectedTextRef st; timers := timers st;
     nextTimerId := nextTimerId st; effects := effects st |}.

Definition setLiveTranscriptHistory v (st : AppState) : AppState :=
  {| session := session st; diseases := diseases st;
     liveTranscript := liveTranscript st; liveTranscriptHistory := v;
     isConnected := isConnected st;
     isLiveTranscribing := isLiveTranscribing st;
     isRecording := isRecording st; loading := loading st;
     soapNote := soapNote st; recommendations := recommendations st;
     wsRef := wsRef st; audioNodesRef := audioNodesRef st;
     diseaseDetectionTimerRef := diseaseDetectionTimerRef st;
     lastDetectedTextRef := lastDetectedTextRef st; timers := timers st;
     nextTimerId := nextTimerId st; effects := effects st |}.

Definition setIsConnected v (st : AppState) : AppState :=
  {| session := session st; diseases := diseases st;
     liveTranscript := liveTranscript st;
     liveTranscriptHistory := liveTranscriptHistory st; isConnected := v;
     isLiveTranscribing := isLiveTranscribing st;
     isRecording := isRecording st; loading := loading st;
     soapNote := soapNote st; recommendations := recommendations st;
     wsRef := wsRef st; audioNodesRef := audioNodesRef st;
     diseaseDetectionTimerRef := diseaseDetectionTimerRef st;
     lastDetectedTextRef := lastDetectedTextRef st; timers := timers st;
     nextTimerId := nextTimerId st; effects := effects st |}.

Definition setIsLiveTranscribing v (st : AppState) : AppState :=
  {| session := session st; diseases := diseases st;
     liveTranscript := liveTranscript st;
     liveTranscriptHistory := liveTranscriptHistory st;
     isConnected := isConnected st; isLiveTranscribing := v;
     isRecording := isRecording st; loading := loading st;
     soapNote := soapNote st; recommendations := recommendations st;
     wsRef := wsRef st; audioNodesRef := audioNodesRef st;
     diseaseDetectionTimerRef := diseaseDetectionTimerRef st;
     lastDetectedTextRef := lastDetectedTextRef st; timers := timers st;
     nextTimerId := nextTimerId st; effects := effects st |}.

Definition setIsRecording v (st : AppState) : AppState :=
  {| session := session st; diseases := diseases st;
     liveTranscript := liveTranscript st;
     liveTranscriptHistory := liveTranscriptHistory st;
     isConnected := isConnected st;
     isLiveTranscribing := isLiveTranscribing st; isRecording := v;
     loading := loading st; soapNote := soapNote st;
     recommendations := recommendations st; wsRef := wsRef st;
     audioNodesRef := audioNodesRef st;
     diseaseDetectionTimerRef := diseaseDetectionTimerRef st;
     lastDetectedTextRef := lastDetectedTextRef st; timers := timers st;
     nextTimerId := nextTimerId st; effects := effects st |}.

Definition setLoading v (st : AppState) : AppState :=
  {| session := session st; diseases := diseases st;
     liveTranscript := liveTranscript st;
     liveTranscriptHistory := liveTranscriptHistory st;
     isConnected := isConnected st;
     isLiveTranscribing := isLiveTranscribing st;
     isRecording := isRecording st; loading := v; soapNote := soapNote st;
     recommendations := recommendations st; wsRef := wsRef st;
     audioNodesRef := audioNodesRef st;
     diseaseDetectionTimerRef := diseaseDetectionTimerRef st;
     lastDetectedTextRef := lastDetectedTextRef st; timers := timers st;
     nextTimerId := nextTimerId st; effects := effects st |}.

Definition setSoapNote v (st : AppState) : AppState :=
  {| session := session st; diseases := diseases st;
     liveTranscript := liveTranscript st;
     liveTranscriptHistory := liveTranscriptHistory st;
     isConnected := isConnected st;
     isLiveTranscribing := isLiveTranscribing st;
     isRecording := isRecording st; loading := loading st; soapNote := v;
     recommendations := recommendations st; wsRef := wsRef st;
     audioNodesRef := audioNodesRef st;
     diseaseDetectionTimerRef := diseaseDetectionTimerRef st;
     lastDetectedTextRef := lastDetectedTextRef st; timers := timers st;
     nextTimerId := nextTimerId st; effects := effects st |}.

Definition setRecommendations v (st : AppState) : AppState :=
  {| session := session st; diseases := diseases st;
     liveTranscript := liveTranscript st;
     liveTranscriptHistory := liveTranscriptHistory st;
     isConnected := isConnected st;
     isLiveTranscribing := isLiveTranscribing st;
     isRecording := isRecording st; loading := loading st;
     soapNote := soapNote st; recommendations := v; wsRef := wsRef st;
     audioNodesRef := audioNodesRef st;
     diseaseDetectionTimerRef := diseaseDetectionTimerRef st;
     lastDetectedTextRef := lastDetectedTextRef st; timers := timers st;
     nextTimerId := nextTimerId st; effects := effects st |}.

Definition assign_wsRef v (st : AppState) : AppState :=
  {| session := session st; diseases := diseases st;
     liveTranscript := liveTranscript st;
     liveTranscriptHistory := liveTranscriptHistory st;
     isConnected := isConnected st;
     isLiveTranscribing := isLiveTranscribing st;
     isRecording := isRecording st; loading := loading st;
     soapNote := soapNote st; recommendations := recommendations st;
     wsRef := v; audioNodesRef := audioNodesRef st;
     diseaseDetectionTimerRef := diseaseDetectionTimerRef st;
     lastDetectedTextRef := lastDetectedTextRef st; timers := timers st;
     nextTimerId := nextTimerId st; effects := effects st |}.

Definition assign_audioNodesRef v (st : AppState) : AppState :=
  {| session := session st; diseases := diseases st;
     liveTranscript := liveTranscript st;
     liveTranscriptHistory := liveTranscriptHistory st;
     isConnected := isConnected st;
     isLiveTranscribing := isLiveTranscribing st;
     isRecording := isRecording st; loading := loading st;
     soapNote := soapNote st; recommendations := recommendations st;
     wsRef := wsRef st; audioNodesRef := v;
     diseaseDetectionTimerRef := diseaseDetectionTimerRef st;
     lastDetectedTextRef := lastDetectedTextRef st; timers := timers st;
     nextTimerId := nextTimerId st; effects := effects st |}.

Definition assign_diseaseDetectionTimerRef v (st : AppState) : AppState :=
  {| session := session st; diseases := diseases st;
     liveTranscript := liveTranscript st;
     liveTranscriptHistory := liveTranscriptHistory st;
     isConnected := isConnected st;
     isLiveTranscribing := isLiveTranscribing st;
     isRecording := isRecording st; loading := loading st;
     soapNote := soapNote st; recommendations := recommendations st;
     wsRef := wsRef st; audioNodesRef := audioNodesRef st;
     diseaseDetectionTimerRef := v;
     lastDetectedTextRef := lastDetectedTextRef st; timers := timers st;
     nextTimerId := nextTimerId st; effects := effects st |}.

Definition assign_lastDetectedTextRef v (st : AppState) : AppState :=
  {| session := session st; diseases := diseases st;
     liveTranscript := liveTranscript st;
     liveTranscriptHistory := liveTranscriptHistory st;
     isConnected := isConnected st;
     isLiveTranscribing := isLiveTranscribing st;
     isRecording := isRecording st; loading := loading st;
     soapNote := soapNote st; recommendations := recommendations st;
     wsRef := wsRef st; audioNodesRef := audioNodesRef st;
     diseaseDetectionTimerRef := diseaseDetectionTimerRef st;
     lastDetectedTextRef := v; timers := timers st;
     nextTimerId := nextTimerId st; effects := effects st |}.

Definition with_timers v (st : AppState) : AppState :=
  {| session := session st; diseases := diseases st;
     liveTranscript := liveTranscript st;
     liveTranscriptHistory := liveTranscriptHistory st;
     isConnected := isConnected st;
     isLiveTranscribing := isLiveTranscribing st;
     isRecording := isRecording st; loading := loading st;
     soapNote := soapNote st; recommendations := recommendations st;
     wsRef := wsRef st; audioNodesRef := audioNodesRef st;
     diseaseDetectionTimerRef := diseaseDetectionTimerRef st;
     lastDetectedTextRef := lastDetectedTextRef st; timers := v;
     nextTimerId := nextTimerId st; effects := effects st |}.

Definition with_nextTimerId v (st : AppState) : AppState :=
  {| session := session st; diseases := diseases st;
     liveTranscript := liveTranscript st;
     liveTranscriptHistory := liveTranscriptHistory st;
     isConnected := isConnected st;
     isLiveTranscribing := isLiveTranscribing st;
     isRecording := isRecording st; loading := loading st;
     soapNote := soapNote st; recommendations := recommendations st;
     wsRef := wsRef st; audioNodesRef := audioNodesRef st;
     diseaseDetectionTimerRef := diseaseDetectionTimerRef st;
     lastDetectedTextRef := lastDetectedTextRef st; timers := timers st;
     nextTimerId := v; effects := effects st |}.

Definition with_effects v (st : AppState) : AppState :=
  {| session := session st; diseases := diseases st;
     liveTranscript := liveTranscript st;
     liveTranscriptHistory := liveTranscriptHistory st;
     isConnected := isConnected st;
     isLiveTranscribing := isLiveTranscribing st;
     isRecording := isRecording st; loading := loading st;
     soapNote := soapNote st; recommendations := recommendations st;
     wsRef := wsRef st; audioNodesRef := audioNodesRef st;
     diseaseDetectionTimerRef := diseaseDetectionTimerRef st;
     lastDetectedTextRef := lastDetectedTextRef st; timers := timers st;
     nextTimerId := nextTimerId st; effects := v |}.

Definition emit (e : Effect) (st : AppState) : AppState :=
  with_effects (effects st ++ [e]) st.

(** ** The browser's timers *)

(** [window.setTimeout(callback, ms)]: the new id, greater than zero, and the
    state with the timer pending. *)
Definition setTimeout (text : string) (captured : option Session) (ms : nat)
    (st : AppState) : positive * AppState :=
  let id := nextTimerId st in
  let tm := {| timer_id := id; timer_ms := ms; timer_text := text;
               timer_session := captured |} in
  (id, emit (SetTimeout id ms)
         (with_nextTimerId (Pos.succ id) (with_timers (timers st ++ [tm]) st))).

(** [clearTimeout(id)]: nothing happens when no such timer is pending. *)
Definition clearTimeout (id : positive) (st : AppState) : AppState :=
  emit (ClearTimeout id)
    (with_timers (filter (λ tm, timer_id tm ≠ id) (timers st)) st).

(** ** The analysis scheduler *)

(** [detectDiseases(text)] up to its first [await]: the request to the
    disease-detection service. [captured] is the [session] of its closure. *)
Definition detectDiseases (captured : option Session) (text : string)
    (st : AppState) : AppState :=
  match captured with
  | None => st
  | Some s => emit (PostAnalyze (session_id s) text) st
  end.

(** What [fetch] and [response.json()] give [detectDiseases]. *)
Inductive AnalyzeResponse :=
| AnalyzeFailed
| AnalyzeHttpError (status : nat)
| AnalyzeOk (detections : option (list DiseaseHighlight)).

(** [detectDiseases] after its [await]s. *)
Definition detectDiseases_resume (r : AnalyzeResponse) (st : AppState) : AppState :=
  match r with
  | AnalyzeOk (Some (d :: ds)) => setDiseases (merge (diseases st) (d :: ds)) st
  | _ => st
  end.

(** [similarity > 0.85], on the exact quotient. *)
Definition too_similar (similarity : Q) : bool :=
  negb (Qle_bool similarity (85 # 100)).

Definition cancel_pending (st : AppState) : AppState :=
  match diseaseDetectionTimerRef st with
  | Some id => clearTimeout id st
  | None => st
  end.

(** [detectDiseasesDebounced(text)] *)
Definition detectDiseasesDebounced (captured : option Session) (text : string)
    (st : AppState) : AppState :=
  let st := cancel_pending st in
  if (String.length text <? 10)%nat then st
  else
    let similarity := calculateSimilarity (lastDetectedTextRef st) text in
    if too_similar similarity then st
    else
      let '(id, st) := setTimeout text captured 1500 st in
      assign_diseaseDetectionTimerRef (Some id) st.

(** The callback given to [setTimeout] by [detectDiseasesDebounced]. *)
Definition debounce_callback (tm : Timer) (st : AppState) : AppState :=
  detectDiseases (timer_session tm) (timer_text tm)
    (assign_lastDetectedTextRef (timer_text tm) st).

(** The browser runs the pending timer [id], once. *)
Definition fire_timer (id : positive) (st : AppState) : AppState :=
  match filter (λ tm, timer_id tm = id) (timers st) with
  | tm :: _ =>
      debounce_callback tm
        (with_timers (filter (λ tm, timer_id tm ≠ id) (timers st)) st)
  | [] => st
  end.

(** ** The message handler of the socket *)

(** The calls the handler makes, in order. *)
Inductive Call :=
| CallAlert (message : string)
| CallAppendHistory (formattedText : string)
| CallSetLiveTranscript (value : string)
| CallDetectDiseases (text : string)
| CallDetectDiseasesDebounced (text : string).

(** The branch [if (data.text)] of the handler. An exception raised while
    formatting is caught by the handler, which then makes no call. *)
Definition transcript_calls (m : Message) : list Call :=
  match text m with
  | Some raw =>
      if truthy raw then
        match formatText raw (words m) with
        | Some formattedText =>
            if is_final m then
              [ CallAppendHistory formattedText;
                CallSetLiveTranscript "";
                CallDetectDiseases formattedText ]
            else
              CallSetLiveTranscript formattedText ::
              (if (5 <=? length (split_space raw))%nat
               then [CallDetectDiseasesDebounced raw] else [])
        | None => []
        end
      else []
  | None => []
  end.

(** [ws.onmessage] for a message that parsed as JSON. *)
Definition onmessage_calls (m : Message) : list Call :=
  match error m with
  | Some e =>
      if truthy e then [CallAlert ("Transcription error: " +:+ e)]
      else transcript_calls m
  | None => transcript_calls m
  end.

Definition run_call (captured : option Session) (st : AppState) (c : Call) : AppState :=
  match c with
  | CallAlert msg => emit (Alert msg) st
  | CallAppendHistory formattedText =>
      setLiveTranscriptHistory (liveTranscriptHistory st ++ [formattedText]) st
  | CallSetLiveTranscript v => setLiveTranscript v st
  | CallDetectDiseases t => detectDiseases captured t st
  | CallDetectDiseasesDebounced t => detectDiseasesDebounced captured t st
  end.

Definition onmessage (captured : option Session) (m : Message) (st : AppState) : AppState :=
  foldl (run_call captured) st (onmessage_calls m).

(** ** The end of a recording *)

Inductive SoapResponse :=
| SoapFailed
| SoapHttpError (statusText : string)
| SoapOk (data : Report).

Inductive RecommendationsResponse :=
| RecommendationsFailed
| RecommendationsHttpError (status : nat)
| RecommendationsOk (data : option (list Recommendation)).

(** [liveTranscriptHistory.join('\n\n')] *)
Definition fullTranscript (render : AppState) : string :=
  join (newline +:+ newline) (liveTranscriptHistory render).

(** [!fullTranscript || fullTranscript.trim().length === 0] *)
Definition no_transcript (t : string) : bool :=
  negb (truthy t) || all_whitespace t.

Definition detected_disease (d : DiseaseHighlight) : DetectedDisease :=
  {| dd_name := match disease_name d with
                | Some n => if truthy n then n else disease d
                | None => disease d
                end;
     dd_icd10 := icd10_code d;
     dd_confidence := confidence d;
     dd_severity := severity d |}.

(** [generateSOAP], reading the state of the render [render] that created
    it and given the response [r] of the generator. *)
Definition generateSOAP (render : AppState) (r : SoapResponse) (st : AppState) : AppState :=
  match session render with
  | None => st
  | Some s =>
      if no_transcript (fullTranscript render) then
        emit (Alert "No transcript available. Please record some conversation first.") st
      else
        let st := setLoading true st in
        let st := emit (PostSoapGenerate (session_id s) (fullTranscript render)
                          (detected_disease <$> diseases render) "general") st in
        let st :=
          match r with
          | SoapOk data => setSoapNote (Some data) st
          | SoapHttpError statusText =>
              emit (Alert ("Failed to generate SOAP note: " +:+ statusText)) st
          | SoapFailed =>
              emit (Alert "Failed to generate SOAP note. Check console for details.") st
          end in
        setLoading false st
  end.

(** [generateRecommendations], likewise. *)
Definition generateRecommendations (render : AppState) (r : RecommendationsResponse)
    (st : AppState) : AppState :=
  match session render with
  | None => st
  | Some s =>
      if no_transcript (fullTranscript render) then st
      else
        let st := setLoading true st in
        let st := emit (PostRecommendations (session_id s) (fullTranscript render)
                          (detected_disease <$> diseases render) (soapNote render)) st in
        let st :=
          match r with
          | RecommendationsOk (Some l) => setRecommendations l st
          | RecommendationsOk None => setRecommendations [] st
          | _ => st
          end in
        setLoading false st
  end.

Definition disconnect_nodes (st : AppState) : AppState :=
  match audioNodesRef st with
  | Some nodes =>
      let st := if source nodes then emit SourceDisconnect st else st in
      let st := if processor nodes then emit ProcessorDisconnect st else st in
      assign_audioNodesRef None st
  | None => st
  end.

(** The block of [stopRecording] that finalizes the socket. [close] moves
    an open or connecting socket to [CLOSING]. *)
Definition finalize_socket (st : AppState) : AppState :=
  match wsRef st with
  | Some ws =>
      let state := readyState ws in
      let st := match state with
                | OPEN => emit (WsSend "END_OF_STREAM") st
                | _ => st
                end in
      match state with
      | CLOSING | CLOSED => st
      | _ =>
          assign_wsRef (Some {| readyState := CLOSING; ws_session := ws_session ws |})
            (emit (WsClose 1000 "Client stopped") st)
      end
  | None => st
  end.

(** [stopRecording], given the responses its two awaited calls will get. *)
Definition stopRecording (soap : SoapResponse) (rec : RecommendationsResponse)
    (st : AppState) : AppState :=
  let render := st in
  let st := disconnect_nodes st in
  let st := finalize_socket st in
  let st := setIsRecording false st in
  let st := setIsConnected false st in
  let st := setIsLiveTranscribing false st in
  match session render with
  | Some _ => generateRecommendations render rec (generateSOAP render soap st)
  | None => st
  end.

(** ** The start of a recording *)

Inductive SessionResponse :=
| SessionOk (data : Session)
| SessionError (errorMsg : string).

(** [startSession], given the response of the transcription service. *)
Definition startSession (r : SessionResponse) (st : AppState) : AppState :=
  let st := setLoading true st in
  match r with
  | SessionOk data => setLoading false (setSession (Some data) st)
  | SessionError errorMsg =>
      setLoading false (emit (Alert ("Failed to start session: " +:+ errorMsg)) st)
  end.

Inductive MicrophoneResult :=
| MicrophoneGranted
| MicrophoneError (message : string).

(** [startRecording]: the new socket is connecting and its handlers hold
    the session of this render. *)
Definition startRecording (mic : MicrophoneResult) (st : AppState) : AppState :=
  match session st with
  | None => emit (Alert "Please start a session first") st
  | Some s =>
      match mic with
      | MicrophoneError message =>
          emit (Alert ("Failed to access microphone: " +:+ message)) st
      | MicrophoneGranted =>
          let st := assign_wsRef (Some {| readyState := CONNECTING; ws_session := s |}) st in
          let st := setIsLiveTranscribing true st in
          assign_audioNodesRef (Some {| source := true; processor := true |}) st
      end
  end.

Definition with_readyState (state : ReadyState) (st : AppState) : AppState :=
  match wsRef st with
  | Some ws => assign_wsRef (Some {| readyState := state; ws_session := ws_session ws |}) st
  | None => st
  end.

(** [ws.onopen], and the effect of [isRecording] that follows it. *)
Definition onopen (st : AppState) : AppState :=
  setIsLiveTranscribing true (setIsRecording true (setIsConnected true st)).

(** [ws.onclose] and [ws.onerror] *)
Definition onclose (st : AppState) : AppState := setIsConnected false st.
Definition onerror (st : AppState) : AppState := setIsConnected false st.

(** ** The event loop *)

(** What the single thread of the page is asked to run, one at a time. *)
Inductive Event :=
| StartSession (r : SessionResponse)
| StartRecording (mic : MicrophoneResult)
| WsOpen
| WsMessage (m : Message)
| WsClosed (code : nat)
| WsError
| TimerFired (id : positive)
| AnalyzeResponded (r : AnalyzeResponse)
| StopRecording (soap : SoapResponse) (rec : RecommendationsResponse).

Definition step (st : AppState) (e : Event) : AppState :=
  match e with
  | StartSession r => startSession r st
  | StartRecording mic => startRecording mic st
  | WsOpen =>
      match wsRef st with
      | Some {| readyState := CONNECTING |} => onopen (with_readyState OPEN st)
      | _ => st
      end
  | WsMessage m =>
      match wsRef st with
      | Some ws => onmessage (Some (ws_session ws)) m st
      | None => st
      end
  | WsClosed code =>
      match wsRef st with
      | Some ws => onclose (with_readyState CLOSED st)
      | None => st
      end
  | WsError =>
      match wsRef st with
      | Some ws => onerror st
      | None => st
      end
  | TimerFired id => fire_timer id st
  | AnalyzeResponded r => detectDiseases_resume r st
  | StopRecording soap rec => stopRecording soap rec st
  end.

Definition run (st : AppState) (es : list Event) : AppState := foldl step st es.

(** ** Predicates of the statements *)

(** The timers of a state are those of a page that only this scheduler
    arms: ids already given out are below the next one, and the only timer
    that can be pending is the one the ref holds. *)
Definition single_slot (st : AppState) : Prop :=
  match timers st with
  | [] => True
  | [tm] =>
      diseaseDetectionTimerRef st = Some (timer_id tm)
      ∧ (timer_id tm < nextTimerId st)%positive
  | _ => False
  end.

(** Every pending timer holds a text that the gate lets through against the
    text last analyzed. *)
Definition gate_approved (st : AppState) : Prop :=
  ∀ tm, tm ∈ timers st →
    (10 ≤ String.length (timer_text tm))%nat
    ∧ too_similar (calculateSimilarity (lastDetectedTextRef st) (timer_text tm)) = false.

(** The names of a detection list are pairwise distinct. *)
Definition distinct_names (l : list DiseaseHighlight) : Prop :=
  NoDup (disease_name <$> l).

(** A transcript message the handler takes: no error, a text that is not
    empty, and speaker tags that can be grouped. *)
Definition accepted (m : Message) : Prop :=
  truthy_field (error m) = false
  ∧ truthy_field (text m) = true
  ∧ is_Some (formatText (default "" (text m)) (words m)).

(** [format(m)] of an accepted message. *)
Definition format (m : Message) : string :=
  default "" (formatText (default "" (text m)) (words m)).

(** A message the handler reads a transcript from: no error, and a text
    that is not empty. *)
Definition carries_text (m : Message) : bool :=
  negb (truthy_field (error m)) && truthy_field (text m).

(** No word of the message is tagged with a name inherited from
    [Object.prototype]: the grouping raises no exception. *)
Definition groupable (m : Message) : Prop :=
  Forall (λ w, JsObject.inherited (speaker_of w) = false) (default [] (words m)).

(** The distinct tags of a list, each at the place of its first
    occurrence. *)
Fixpoint first_occurrences (tags : list string) : list string :=
  match tags with
  | [] => []
  | tag :: r => tag :: filter (λ tag', tag' ≠ tag) (first_occurrences r)
  end.

(** The whitespace-delimited tokens of a text, as the specification words
    them: the maximal runs of code units that are not whitespace. The two
    [split]s of the source are compared with them. *)
Fixpoint tokens_from (acc : string) (s : string) : list string :=
  match s with
  | EmptyString => if truthy acc then [acc] else []
  | String c r =>
      if is_whitespace c then
        (if truthy acc then [acc] else []) ++ tokens_from EmptyString r
      else tokens_from (snoc acc c) r
  end.

Definition whitespace_tokens (s : string) : list string :=
  tokens_from EmptyString s.

(** The set of lower-cased whitespace-delimited tokens of a text, as the
    specification words it, to compare with [words_of] of the source. *)
Definition token_set (t : string) : wordset :=
  list_to_set (whitespace_tokens (toLowerCase t)).

(** A text that starts, or ends, with a whitespace code unit, as the
    specification would word it. *)
Definition starts_with_whitespace (s : string) : bool :=
  match s with
  | EmptyString => false
  | String c _ => is_whitespace c
  end.

Fixpoint ends_with_whitespace (s : string) : bool :=
  match s with
  | EmptyString => false
  | String c EmptyString => is_whitespace c
  | String _ r => ends_with_whitespace r
  end.

(** The timer [detectDiseasesDebounced] arms for [text]. *)
Definition debounce_timer (id : positive) (captured : option Session) (text : string) : Timer :=
  {| timer_id := id; timer_ms := 1500; timer_text := text; timer_session := captured |}.

Definition is_debounced_call (c : Call) : bool :=
  match c with CallDetectDiseasesDebounced _ => true | _ => false end.

(** An event that neither fires a timer nor makes a debounced request. *)
Definition quiet (e : Event) : bool :=
  match e with
  | TimerFired _ => false
  | WsMessage m => forallb (λ c, negb (is_debounced_call c)) (onmessage_calls m)
  | _ => true
  end.

(** What the scheduler owns: the pending timers, the ref to the last one,
    the next id and the text last analyzed. *)
Definition scheduler (st : AppState) : list Timer * option positive * positive * string :=
  (timers st, diseaseDetectionTimerRef st, nextTimerId st, lastDetectedTextRef st).

(** The React state and the refs other than those of the scheduler. *)
Definition page (st : AppState) :=
  (session st, diseases st, liveTranscript st, liveTranscriptHistory st,
   (isConnected st, isLiveTranscribing st, isRecording st, loading st),
   (soapNote st, recommendations st, wsRef st, audioNodesRef st)).

(** The formatted texts a message makes the handler append to the history. *)
Definition appended_by (m : Message) : list string :=
  omap (λ c, match c with CallAppendHistory ft => Some ft | _ => None end)
       (onmessage_calls m).

(** The final messages among the events, in the order of delivery. *)
Definition final_messages (es : list Event) : list Message :=
  omap (λ e, match e with
             | WsMessage m => if is_final m then Some m else None
             | _ => None
             end) es.

(** The calls on the socket and the requests to the two generators. *)
Definition is_socket_call (e : Effect) : bool :=
  match e with WsSend _ | WsClose _ _ => true | _ => false end.

Definition is_generation_request (e : Effect) : bool :=
  match e with
  | PostSoapGenerate _ _ _ _ | PostRecommendations _ _ _ _ => true
  | _ => false
  end.

Definition socket_calls (l : list Effect) : list Effect :=
  filter (λ e, is_socket_call e = true) l.

(** ** Sample data *)

Module Sample.

Definition session1 : Session := {| session_id := "S-1" |}.

Definition pneumonia (c : Q) : DiseaseHighlight :=
  {| disease := "Pneumonia"; disease_name := Some "Pneumonia";
     icd10_code := Some "J18.9"; confidence := c; severity := high;
     position := (0, 9)%nat; supporting_symptoms := None |}.

(** A page that is recording under [session1], nothing received yet. *)
Definition recording : AppState :=
  run initial [StartSession (SessionOk session1);
               StartRecording MicrophoneGranted; WsOpen].

Definition transcript (raw : string) (ws : option (list Word)) (final : bool) : Message :=
  {| error := None; text := Some raw; words := ws; is_final := final |}.

Definition scenario_text : string :=
  "Patient reports chest pain and shortness of breath".

Definition other_words : string := "He also mentions a mild fever since Monday".

Definition said (tag : string) (w : string) : Word :=
  {| word := w; speaker_tag := Some tag |}.

(** A message that carries an error next to a final text. *)
Definition refused : Message :=
  {| error := Some "stream failed"; text := Some "Patient reports chest pain";
     words := None; is_final := true |}.

(** A final message one word of which is tagged with an inherited name. *)
Definition inherited_tag : Message :=
  transcript "I have a cough"
    (Some [said "SPEAKER_2" "I"; said "constructor" "have";
           said "SPEAKER_2" "a"; said "SPEAKER_2" "cough"]) true.

(** Three words two spaces apart: five pieces for [split(' ')]. *)
Definition double_spaced : Message :=
  transcript "chest  pain  today" None false.

(** Five words a tab apart: one piece for [split(' ')]. *)
Definition tabbed : Message :=
  transcript (join tab ["fever"; "cough"; "chest"; "pain"; "today"]) None false.

Definition four_words : Message :=
  transcript "Patient reports chest pain" None false.

(** A final message without text. *)
Definition silent : Message := transcript "" None true.

Definition two_speakers : Message :=
  transcript "I have a cough okay"
    (Some [said "SPEAKER_2" "I"; said "SPEAKER_2" "have"; said "SPEAKER_1" "okay";
           said "SPEAKER_2" "a"; said "SPEAKER_2" "cough"]) true.

(** The page after the longer interim text has armed the timer. *)
Definition armed_events : list Event :=
  [StartSession (SessionOk session1); StartRecording MicrophoneGranted;
   WsOpen; WsMessage four_words; WsMessage (transcript scenario_text None false)].

End Sample.

(** ** More views of a run *)

(** The detections that an event delivers to the page. *)
Definition detections_of (e : Event) : list DiseaseHighlight :=
  match e with
  | AnalyzeResponded (AnalyzeOk (Some l)) => l
  | _ => []
  end.




Definition generation_requests (l : list Effect) : list Effect :=
  filter (λ e, is_generation_request e = true) l.

(** The number of space characters of a text. *)
Fixpoint count_spaces (s : string) : nat :=
  match s with
  | EmptyString => 0
  | String c r => (if Ascii.eqb c " " then 1 else 0) + count_spaces r
  end.

(** The place of a ready state in the life of a socket. *)
Definition ready_rank (state : ReadyState) : nat :=
  match state with CONNECTING => 0 | OPEN => 1 | CLOSING => 2 | CLOSED => 3 end.

(** ** Audio frames *)

(** A sample of the input buffer: a 32-bit float, whose finite values are
    rationals. The product of such a value with 32767 needs at most 39
    significant bits, so the double the source computes is the exact product,
    and so are the two comparisons that follow. *)
Inductive Float :=
| Finite (q : Q)
| Infinite (positive : bool)
| NaN.

(** [inputData[i] * 32767] *)
Definition scale (x : Float) : Float :=
  match x with
  | Finite q => Finite (q * 32767)
  | other => other
  end.

(** [Math.min(32767, y)] *)
Definition min_32767 (y : Float) : Float :=
  match y with
  | Finite q => if Qle_bool q 32767 then Finite q else Finite 32767
  | Infinite true => Finite 32767
  | Infinite false => Infinite false
  | NaN => NaN
  end.

(** [Math.max(-32768, y)] *)
Definition max_minus_32768 (y : Float) : Float :=
  match y with
  | Finite q => if Qle_bool (-32768) q then Finite q else Finite (-32768)
  | Infinite true => Infinite true
  | Infinite false => Finite (-32768)
  | NaN => NaN
  end.

(** What the two comparisons leave of a finite product. *)
Definition clamp (q : Q) : Q :=
  if Qle_bool q 32767 then (if Qle_bool (-32768) q then q else -32768)%Q
  else 32767%Q.

(** The integer part of a rational, towards zero. *)
Definition truncate (q : Q) : Z := Z.quot (Qnum q) (Z.pos (Qden q)).

(** An integer taken modulo 2^16 into the range of 16-bit signed integers. *)
Definition wrap16 (z : Z) : Z :=
  let m := (z mod 65536)%Z in
  if (32768 <=? m)%Z then (m - 65536)%Z else m.

(** The store of a number into an [Int16Array]: not-a-number and the
    infinities become 0, a finite number is truncated and wrapped. *)
Definition ToInt16 (v : Float) : Z :=
  match v with
  | Finite q => wrap16 (truncate q)
  | _ => 0%Z
  end.

(** [pcm[i] = Math.max(-32768, Math.min(32767, inputData[i] * 32767))] *)
Definition pcm16 (x : Float) : Z :=
  ToInt16 (max_minus_32768 (min_32767 (scale x))).

(** [processor.onaudioprocess]: the frame sent on the socket, if any, and
    the count of frames sent so far. Nothing is kept of a buffer that comes
    while the socket is not open. *)
Definition onaudioprocess (ws : option WebSocket) (inputData : list Float)
    (audioChunkCount : nat) : option (list Z) * nat :=
  match ws with
  | Some {| readyState := OPEN |} => (Some (pcm16 <$> inputData), S audioChunkCount)
  | _ => (None, audioChunkCount)
  end.

(** ** The recording clock *)

(** [n.toString()] of a count of seconds or minutes: a natural number, in
    decimal. *)
Definition toString (n : nat) : string :=
  DecimalString.NilEmpty.string_of_uint (Nat.to_uint n).

(** [s.padStart(2, '0')] *)
Definition padStart2 (s : string) : string :=
  match String.length s with
  | 0 => "00"
  | 1 => "0" +:+ s
  | _ => s
  end.

(** [formatTime(seconds)], for the whole seconds that [recordingTime]
    counts. *)
Definition formatTime (seconds : nat) : string :=
  let mins := seconds / 60 in
  let secs := seconds mod 60 in
  toString mins +:+ ":" +:+ padStart2 (toString secs).

(** A text without a colon. *)
Fixpoint colon_free (s : string) : bool :=
  match s with
  | EmptyString => true
  | String c r => negb (Ascii.eqb c ":") && colon_free r
  end.

(** * Properties *)

(** ** The similarity gate *)

Section Similarity.

Lemma split_ws_from_cons acc in_ws s : ∃ p ps, split_ws_from acc in_ws s = p :: ps.
Proof.
  revert acc in_ws. induction s as [|c r IH]; intros acc in_ws; simpl.
  - eauto.
  - destruct (is_whitespace c); [destruct in_ws|]; eauto.
Qed.

Lemma words_of_size t : (0 < size (words_of t))%nat.
Proof.
  unfold words_of, split_ws.
  destruct (split_ws_from_cons "" false (toLowerCase t)) as (p & ps & ->).
  rewrite list_to_set_cons.
  assert (size ({[p]} ∪ list_to_set ps : wordset) ≠ 0%nat); [|lia].
  rewrite size_empty_iff. set_solver.
Qed.

Lemma filter_elem_of_intersection (A B : wordset) :
  filter (λ x, x ∈ B) A = A ∩ B.
Proof.
  apply set_eq. intros x. rewrite elem_of_filter, elem_of_intersection. tauto.
Qed.

Lemma union_size_l (A B : wordset) : (0 < size A → 0 < size (A ∪ B))%nat.
Proof.
  intros HA. assert (A ⊆ A ∪ B) as Hsub by set_solver.
  apply subseteq_size in Hsub. lia.
Qed.

(** On two non-empty texts the gate is the Jaccard index of the word sets. *)
Lemma calculateSimilarity_jaccard a b :
  truthy a = true → truthy b = true →
  calculateSimilarity a b = jaccard (words_of a) (words_of b).
Proof.
  intros Ha Hb. unfold calculateSimilarity, jaccard. rewrite Ha, Hb. simpl.
  rewrite filter_elem_of_intersection.
  assert (0 < size (words_of a ∪ words_of b))%nat as Hu
    by (apply union_size_l, words_of_size).
  apply Nat.ltb_lt in Hu. by rewrite Hu.
Qed.

Lemma jaccard_comm (A B : wordset) : jaccard A B = jaccard B A.
Proof.
  unfold jaccard.
  by rewrite (comm_L (∩) A B), (comm_L (∪) A B).
Qed.

Lemma jaccard_self (A : wordset) : (0 < size A)%nat → (jaccard A A == 1)%Q.
Proof.
  intros HA. unfold jaccard.
  rewrite (idemp_L (∩) A), (idemp_L (∪) A).
  destruct (size A) as [|n]; [lia|].
  unfold Qeq. cbn [Qnum Qden]. rewrite <- Pos.of_nat_succ, Zpos_P_of_succ_nat.
  lia.
Qed.

Lemma calculateSimilarity_empty_r y : calculateSimilarity y "" = 0%Q.
Proof. unfold calculateSimilarity. simpl. by rewrite orb_true_r. Qed.

(** The tokens of a text are the pieces of [split(/\s+/)] that are not
    empty. *)
Lemma tokens_from_split s : ∀ acc in_ws,
  (in_ws = true → acc = "") →
  tokens_from acc s = filter (λ p, p ≠ "") (split_ws_from acc in_ws s).
Proof.
  assert (∀ acc, (if truthy acc then [acc] else []) = filter (λ p, p ≠ "") [acc]) as Hacc.
  { intros [|c acc]; rewrite filter_cons, filter_nil.
    - by rewrite decide_False by (by intros []).
    - by rewrite decide_True. }
  induction s as [|c r IH]; intros acc in_ws Hin; simpl; [apply Hacc|].
  destruct (is_whitespace c).
  - destruct in_ws.
    + rewrite (Hin eq_refl). simpl. by apply IH.
    + rewrite (IH "" true) by done.
      change (acc :: ?l) with ([acc] ++ l). by rewrite filter_app, Hacc.
  - by apply IH.
Qed.

Lemma token_set_words_of t : token_set t = words_of t ∖ {[""]}.
Proof.
  unfold token_set, words_of, whitespace_tokens, split_ws.
  rewrite (tokens_from_split _ "" false) by done.
  apply set_eq. intros x.
  rewrite elem_of_difference, !elem_of_list_to_set, list_elem_of_filter,
    elem_of_singleton.
  tauto.
Qed.

Lemma is_whitespace_lower_char c : is_whitespace (lower_char c) = is_whitespace c.
Proof. by destruct c as [[] [] [] [] [] [] [] []]. Qed.

Lemma starts_with_whitespace_lower t :
  starts_with_whitespace (toLowerCase t) = starts_with_whitespace t.
Proof. destruct t; [done|apply is_whitespace_lower_char]. Qed.

Lemma ends_with_whitespace_lower t :
  ends_with_whitespace (toLowerCase t) = ends_with_whitespace t.
Proof.
  induction t as [|c [|c' r] IH]; [done|apply is_whitespace_lower_char|].
  exact IH.
Qed.

Lemma ends_with_whitespace_cons c r :
  ends_with_whitespace (String c r)
  = match r with
    | EmptyString => is_whitespace c
    | _ => ends_with_whitespace r
    end.
Proof. by destruct r. Qed.

Lemma snoc_not_empty acc c : snoc acc c ≠ "".
Proof. by destruct acc. Qed.

(** Where the pieces of [split(/\s+/)] hold the empty string: at the start,
    when nothing has been read before a whitespace or the end, and at the
    end, after a last whitespace. *)
Lemma empty_piece s : ∀ acc,
  ("" ∈ split_ws_from "" true s ↔ s = "" ∨ ends_with_whitespace s = true)
  ∧ ("" ∈ split_ws_from acc false s
     ↔ (acc = "" ∧ (s = "" ∨ starts_with_whitespace s = true))
       ∨ ends_with_whitespace s = true).
Proof.
  induction s as [|c r IH]; intros acc.
  - simpl. rewrite !list_elem_of_singleton. intuition congruence.
  - cbn [split_ws_from starts_with_whitespace].
    rewrite ends_with_whitespace_cons.
    destruct (is_whitespace c) eqn:Hc.
    + rewrite elem_of_cons, (proj1 (IH "")).
      clear IH. destruct r as [|c' r']; intuition congruence.
    + destruct (IH (snoc acc c)) as [_ Hacc]. rewrite Hacc.
      destruct (IH (snoc "" c)) as [_ Hacc']. rewrite Hacc'.
      pose proof (snoc_not_empty acc c) as Hne.
      pose proof (snoc_not_empty "" c) as Hne'.
      clear IH Hacc Hacc'. destruct r as [|c' r']; intuition congruence.
Qed.

Lemma empty_word t :
  truthy t = true →
  "" ∈ words_of t
  ↔ starts_with_whitespace t || ends_with_whitespace t = true.
Proof.
  intros Ht. unfold words_of, split_ws. rewrite elem_of_list_to_set.
  rewrite (proj2 (empty_piece (toLowerCase t) "")),
    starts_with_whitespace_lower, ends_with_whitespace_lower, orb_true_iff.
  destruct t; [done|]. simpl toLowerCase. intuition congruence.
Qed.

End Similarity.

(** C7, as the code has it: the similarity gate gives 1 on a non-empty text
    against itself, 0 as soon as one text is empty, and the same score in
    both orders. On two non-empty texts it is the Jaccard index of the sets of
    lower-cased pieces that [split(/\s+/)] cuts them into; these are the
    sets of whitespace-delimited tokens, with the empty string added exactly
    when the text starts or ends with whitespace. On two non-empty texts that
    neither start nor end with whitespace it is therefore the Jaccard index
    of the token sets. *)
Theorem similarity_gate :
  (∀ x, truthy x = true → (calculateSimilarity x x == 1)%Q)
  ∧ (∀ y, (calculateSimilarity "" y == 0)%Q ∧ (calculateSimilarity y "" == 0)%Q)
  ∧ (∀ a b, (calculateSimilarity a b == calculateSimilarity b a)%Q)
  ∧ (∀ a b, truthy a = true → truthy b = true →
       calculateSimilarity a b = jaccard (words_of a) (words_of b))
  ∧ (∀ t, token_set t = words_of t ∖ {[""]})
  ∧ (∀ t, truthy t = true →
       "" ∈ words_of t
       ↔ starts_with_whitespace t || ends_with_whitespace t = true)
  ∧ (∀ a b, truthy a = true → truthy b = true →
       starts_with_whitespace a || ends_with_whitespace a = false →
       starts_with_whitespace b || ends_with_whitespace b = false →
       calculateSimilarity a b = jaccard (token_set a) (token_set b)).
Proof.
  split; [|split; [|split; [|split; [|split; [|split]]]]].
  - intros x Hx. rewrite calculateSimilarity_jaccard by done.
    apply jaccard_self, words_of_size.
  - intros y. by rewrite calculateSimilarity_empty_r.
  - intros a b.
    destruct (truthy a) eqn:Ha, (truthy b) eqn:Hb;
      try (unfold calculateSimilarity; rewrite Ha, Hb; reflexivity).
    by rewrite !calculateSimilarity_jaccard, jaccard_comm.
  - apply calculateSimilarity_jaccard.
  - apply token_set_words_of.
  - apply empty_word.
  - intros a b Ha Hb Hea Heb. rewrite calculateSimilarity_jaccard by done.
    assert ("" ∉ words_of a) as Hna by (rewrite empty_word, Hea; done).
    assert ("" ∉ words_of b) as Hnb by (rewrite empty_word, Heb; done).
    rewrite !token_set_words_of. f_equal; apply set_eq; intros x;
      rewrite elem_of_difference, elem_of_singleton;
      (split; [intros Hx; split; [done|by intros ->]|by intros [? _]]).
Qed.

Lemma similarity_gate_witness :
  (calculateSimilarity "Chest pain" "Chest pain" == 1)%Q
  ∧ calculateSimilarity "Chest PAIN" "chest cough fever"
    = jaccard (words_of "Chest PAIN") (words_of "chest cough fever")
  ∧ calculateSimilarity "Chest PAIN" "chest cough fever"
    = jaccard (token_set "Chest PAIN") (token_set "chest cough fever").
Proof.
  split; [|split].
  - apply (proj1 similarity_gate). reflexivity.
  - apply (proj1 (proj2 (proj2 (proj2 similarity_gate)))); reflexivity.
  - apply (proj2 (proj2 (proj2 (proj2 (proj2 (proj2 similarity_gate))))));
      reflexivity.
Defined.

(** As first worded the property fails: a trailing space adds the empty piece
    to one set, so the score of a text against itself plus a space is 2/3,
    while the token sets are equal. *)
Lemma similarity_is_not_over_tokens :
  ¬ (∀ a b, truthy a = true → truthy b = true →
       (calculateSimilarity a b == jaccard (token_set a) (token_set b))%Q).
Proof.
  intros H. specialize (H "chest pain " "chest pain" eq_refl eq_refl).
  vm_compute in H. discriminate H.
Qed.

Example trailing_space_score :
  calculateSimilarity "chest pain " "chest pain" = (2 # 3)%Q
  ∧ jaccard (token_set "chest pain ") (token_set "chest pain") = (2 # 2)%Q
  ∧ too_similar (calculateSimilarity "chest pain " "chest pain") = false.
Proof. repeat split; by vm_compute. Qed.

(** ** The merge of detections *)

Section Merge.

Implicit Types S L : list DiseaseHighlight.

Lemma merge_unfold S L :
  merge S L = S ++ filter (λ d, disease_name d ∉ disease_name <$> S) L.
Proof.
  unfold merge. f_equal. apply list_filter_iff. intros d.
  by rewrite elem_of_list_to_set.
Qed.

Lemma filter_none {A} (P : A → Prop) `{∀ x, Decision (P x)} (l : list A) :
  (∀ x, x ∈ l → ¬ P x) → filter P l = [].
Proof.
  induction l as [|a l IH]; intros Hl; [done|].
  rewrite filter_cons. destruct (decide (P a)) as [Ha|_].
  - destruct (Hl a); [left | done].
  - apply IH. intros x Hx. apply Hl. by right.
Qed.

(** What is already stored stays, in place and unchanged. *)
Lemma merge_prefix S L : ∃ added, merge S L = S ++ added.
Proof. rewrite merge_unfold. eauto. Qed.

(** A detection whose name is stored is not added. *)
Lemma merge_drops_known S L d :
  disease_name d ∈ disease_name <$> S →
  d ∉ filter (λ d, disease_name d ∉ disease_name <$> S) L.
Proof. rewrite list_elem_of_filter. tauto. Qed.

(** Distinct names stay distinct when the incoming list has no name twice. *)
Lemma merge_distinct_names S L :
  distinct_names S → distinct_names L → distinct_names (merge S L).
Proof.
  unfold distinct_names. intros HS HL. rewrite merge_unfold, fmap_app.
  apply NoDup_app. split; [done|]. split.
  - intros n Hn [d [-> Hd]]%list_elem_of_fmap.
    apply list_elem_of_filter in Hd as [Hd _]. done.
  - clear HS. induction L as [|d L IH]; [constructor|].
    rewrite fmap_cons in HL. apply NoDup_cons in HL as [Hd HL].
    rewrite filter_cons. case_decide; [|by apply IH].
    rewrite fmap_cons. apply NoDup_cons. split; [|by apply IH].
    intros [d' [Heq Hd']]%list_elem_of_fmap.
    apply list_elem_of_filter in Hd' as [_ Hd'].
    apply Hd. rewrite Heq. by apply list_elem_of_fmap_2.
Qed.

End Merge.

(** C6: merging the same list of detections a second time changes nothing. *)
Theorem merge_idempotent (S L : list DiseaseHighlight) :
  merge (merge S L) L = merge S L.
Proof.
  rewrite (merge_unfold (merge S L) L).
  rewrite filter_none; [by rewrite app_nil_r|].
  intros d Hd Hnew. apply Hnew. rewrite merge_unfold, fmap_app, elem_of_app.
  destruct (decide (disease_name d ∈ disease_name <$> S)) as [|Hfresh]; [by left|].
  right. apply list_elem_of_fmap_2. by apply list_elem_of_filter.
Qed.

(** C3, at the input where it fails: one response that names a disease
    twice. Both detections are stored, so the names are no longer distinct;
    the same two detections in two responses leave only the first. *)
Theorem merge_repeats_name_within_response :
  let incoming := [Sample.pneumonia (9 # 10); Sample.pneumonia (6 # 10)] in
  merge [] incoming = incoming
  ∧ diseases (detectDiseases_resume (AnalyzeOk (Some incoming)) initial) = incoming
  ∧ ¬ distinct_names (merge [] incoming)
  ∧ merge (merge [] [Sample.pneumonia (9 # 10)]) [Sample.pneumonia (6 # 10)]
    = [Sample.pneumonia (9 # 10)].
Proof.
  repeat split; try by vm_compute.
  unfold distinct_names. vm_compute. intros H.
  apply NoDup_cons in H as [H _]. apply H. left.
Qed.

(** ** The analysis scheduler *)

Section Scheduler.

Implicit Types (st : AppState) (e : Event) (c : Call).

Lemma detectDiseases_scheduler cap t st :
  scheduler (detectDiseases cap t st) = scheduler st.
Proof. by destruct cap. Qed.

Lemma run_call_scheduler cap st c :
  is_debounced_call c = false → scheduler (run_call cap st c) = scheduler st.
Proof.
  destruct c; simpl; intros Hc; try done. apply detectDiseases_scheduler.
Qed.

Lemma run_calls_scheduler cap cs : ∀ st,
  forallb (λ c, negb (is_debounced_call c)) cs = true →
  scheduler (foldl (run_call cap) st cs) = scheduler st.
Proof.
  induction cs as [|c cs IH]; intros st Hcs; [done|].
  simpl in *. apply andb_true_iff in Hcs as [Hc Hcs].
  rewrite IH by done. apply run_call_scheduler. by destruct (is_debounced_call c).
Qed.

Lemma generateSOAP_scheduler render r st :
  scheduler (generateSOAP render r st) = scheduler st.
Proof.
  unfold generateSOAP. destruct (session render); [|done].
  destruct (no_transcript _); [done|]. by destruct r.
Qed.

Lemma generateRecommendations_scheduler render r st :
  scheduler (generateRecommendations render r st) = scheduler st.
Proof.
  unfold generateRecommendations. destruct (session render); [|done].
  destruct (no_transcript _); [done|]. by destruct r as [| |[l|]].
Qed.

Lemma stopRecording_scheduler soap rec st :
  scheduler (stopRecording soap rec st) = scheduler st.
Proof.
  unfold stopRecording.
  assert (scheduler (finalize_socket (disconnect_nodes st)) = scheduler st) as H.
  { unfold finalize_socket, disconnect_nodes.
    destruct (audioNodesRef st) as [[[] []]|]; simpl;
      destruct (wsRef st) as [[[] ?]|]; done. }
  destruct (session st);
    [rewrite generateRecommendations_scheduler, generateSOAP_scheduler|]; done.
Qed.

(** A quiet event leaves the scheduler as it is. *)
Lemma quiet_step st e : quiet e = true → scheduler (step st e) = scheduler st.
Proof.
  destruct e as [r|mic| |m|code| |id|r|soap rec]; simpl; intros Hq; try done.
  - by destruct r.
  - unfold startRecording. destruct (session st); [destruct mic|]; done.
  - unfold with_readyState. by destruct (wsRef st) as [[[] ?]|].
  - destruct (wsRef st); [|done]. by apply run_calls_scheduler.
  - unfold with_readyState. by destruct (wsRef st).
  - by destruct (wsRef st).
  - by destruct r as [| |[[|d ds]|]].
  - apply stopRecording_scheduler.
Qed.

Lemma quiet_run es : ∀ st,
  forallb quiet es = true → scheduler (run st es) = scheduler st.
Proof.
  induction es as [|e es IH]; intros st Hes; [done|].
  simpl in *. apply andb_true_iff in Hes as [He Hes].
  unfold run in IH. rewrite IH by done. by apply quiet_step.
Qed.

Lemma scheduler_single_slot st st' :
  scheduler st' = scheduler st → single_slot st → single_slot st'.
Proof. unfold scheduler, single_slot. intros [= -> -> -> _]. done. Qed.

(** After the pending timer, if any, is cleared, none is left. *)
Lemma cancel_pending_timers st : single_slot st → timers (cancel_pending st) = [].
Proof.
  unfold single_slot, cancel_pending.
  destruct (timers st) as [|tm [|tm' l]] eqn:Htm; try done.
  - intros _. destruct (diseaseDetectionTimerRef st); simpl; by rewrite ?Htm.
  - intros [-> _]. simpl. rewrite Htm, filter_cons, filter_nil.
    by destruct (decide (timer_id tm ≠ timer_id tm)).
Qed.

Lemma cancel_pending_frame st :
  lastDetectedTextRef (cancel_pending st) = lastDetectedTextRef st
  ∧ nextTimerId (cancel_pending st) = nextTimerId st
  ∧ ∀ sid tr, PostAnalyze sid tr ∈ effects (cancel_pending st) →
              PostAnalyze sid tr ∈ effects st.
Proof.
  unfold cancel_pending. destruct (diseaseDetectionTimerRef st); simpl; [|done].
  repeat split. intros sid tr [H|H]%elem_of_app; [done|].
  by apply list_elem_of_singleton in H.
Qed.

End Scheduler.

Section Debounce.

Variables (cap : option Session) (t : string) (st : AppState).
Hypothesis Hslot : single_slot st.

Let last := lastDetectedTextRef st.
Let dropped := (String.length t <? 10)%nat || too_similar (calculateSimilarity last t).
Let st' := detectDiseasesDebounced cap t st.
Let id := nextTimerId st.

Lemma debounced_dropped : dropped = true → st' = cancel_pending st.
Proof.
  subst dropped st' last. unfold detectDiseasesDebounced.
  destruct (cancel_pending_frame st) as (-> & _).
  destruct (String.length t <? 10)%nat; [done|]. simpl. by intros ->.
Qed.

Lemma debounced_armed :
  dropped = false →
  timers st' = [debounce_timer id cap t]
  ∧ diseaseDetectionTimerRef st' = Some id
  ∧ nextTimerId st' = Pos.succ id
  ∧ lastDetectedTextRef st' = last
  ∧ effects st' = effects (cancel_pending st) ++ [SetTimeout id 1500].
Proof.
  subst dropped st' last id. unfold detectDiseasesDebounced.
  destruct (cancel_pending_frame st) as (Hlast & Hnext & _).
  rewrite Hlast. intros [-> ->]%orb_false_iff. simpl.
  by rewrite cancel_pending_timers, Hnext, Hlast.
Qed.

Lemma debounced_fire es :
  dropped = false → forallb quiet es = true →
  let fired := step (run st' es) (TimerFired id) in
  lastDetectedTextRef fired = t
  ∧ effects fired
    = effects (run st' es)
      ++ match cap with Some s => [PostAnalyze (session_id s) t] | None => [] end
  ∧ timers fired = [].
Proof.
  intros Hd Hq. destruct (debounced_armed Hd) as (Htm & _).
  pose proof (quiet_run es st' Hq) as Hsched.
  assert (timers (run st' es) = [debounce_timer id cap t]) as Hrun
    by (unfold scheduler in Hsched; congruence).
  simpl. unfold fire_timer. rewrite Hrun, !filter_cons, !filter_nil. simpl.
  destruct (decide (id = id)); [|done].
  destruct (decide (id ≠ id)); [done|].
  destruct cap; simpl; by rewrite ?app_nil_r.
Qed.

End Debounce.

(** A debounced request on a page whose scheduler holds at most its one
    timer. *)
Lemma debounced_from_single_slot (s : Session) (t : string) (st : AppState) :
  single_slot st →
  let st' := detectDiseasesDebounced (Some s) t st in
  let id := nextTimerId st in
  (∀ tm, tm ∈ timers st → tm ∉ timers st')
  ∧ lastDetectedTextRef st' = lastDetectedTextRef st
  ∧ (∀ sid tr, PostAnalyze sid tr ∈ effects st' → PostAnalyze sid tr ∈ effects st)
  ∧ single_slot st'
  ∧ if (String.length t <? 10)%nat
       || too_similar (calculateSimilarity (lastDetectedTextRef st) t)
    then timers st' = []
    else timers st' = [debounce_timer id (Some s) t]
         ∧ ∀ es, forallb quiet es = true →
             let fired := step (run st' es) (TimerFired id) in
             lastDetectedTextRef fired = t
             ∧ effects fired = effects (run st' es) ++ [PostAnalyze (session_id s) t]
             ∧ timers fired = [].
Proof.
  intros Hslot st' id.
  destruct (cancel_pending_frame st) as (Hlast & Hnext & Heff).
  destruct ((String.length t <? 10)%nat
            || too_similar (calculateSimilarity (lastDetectedTextRef st) t)) eqn:Hd.
  - pose proof (debounced_dropped (Some s) t st Hd) as Hst'. fold st' in Hst'.
    pose proof (cancel_pending_timers st Hslot) as Htm.
    rewrite Hst'. repeat split; try done.
    + rewrite Htm. intros tm _. apply not_elem_of_nil.
    + unfold single_slot. by rewrite Htm.
  - destruct (debounced_armed (Some s) t st Hslot Hd) as (Htm & Href & Hnx & Hl & He).
    fold st' id in Htm, Href, Hnx, Hl, He.
    split; [|split; [done|split; [|split; [|split; [done|]]]]].
    + rewrite Htm. intros tm Hin [->|[]%not_elem_of_nil]%elem_of_cons.
      unfold single_slot in Hslot. destruct (timers st) as [|tm [|? ?]]; try done.
      * by apply not_elem_of_nil in Hin.
      * apply list_elem_of_singleton in Hin as <-. simpl in Hslot. subst id. lia.
    + intros sid tr. rewrite He. intros [H|H]%elem_of_app; [by apply Heff|].
      by apply list_elem_of_singleton in H.
    + unfold single_slot. rewrite Htm, Href, Hnx. simpl. split; [done|lia].
    + intros es Hq. by apply (debounced_fire (Some s)).
Qed.

(** The scheduler never has more than its one timer pending. *)
Section SingleSlot.

Lemma single_slot_initial : single_slot initial.
Proof. exact I. Qed.

Lemma debounced_single_slot cap t st :
  single_slot st → single_slot (detectDiseasesDebounced cap t st).
Proof.
  intros Hslot.
  destruct ((String.length t <? 10)%nat
            || too_similar (calculateSimilarity (lastDetectedTextRef st) t)) eqn:Hd.
  - rewrite (debounced_dropped cap t st Hd). unfold single_slot.
    by rewrite cancel_pending_timers.
  - destruct (debounced_armed cap t st Hslot Hd) as (Htm & Href & Hnx & _).
    unfold single_slot. rewrite Htm, Href, Hnx. simpl. split; [done|lia].
Qed.

Lemma fire_timer_single_slot id st : single_slot st → single_slot (fire_timer id st).
Proof.
  unfold single_slot at 1. unfold fire_timer.
  destruct (timers st) as [|tm [|tm' l]] eqn:Htm; [| |done].
  - intros _. rewrite filter_nil. unfold single_slot. by rewrite Htm.
  - intros Hslot. rewrite !filter_cons, !filter_nil.
    destruct (decide (timer_id tm = id)) as [Heq|Hne].
    + destruct (decide (timer_id tm ≠ id)); [done|].
      unfold single_slot, debounce_callback. by destruct (timer_session tm).
    + unfold single_slot. by rewrite Htm.
Qed.

Lemma run_call_single_slot cap st c :
  single_slot st → single_slot (run_call cap st c).
Proof.
  destruct c; try by apply scheduler_single_slot, run_call_scheduler.
  apply debounced_single_slot.
Qed.

Lemma step_single_slot st e : single_slot st → single_slot (step st e).
Proof.
  intros Hslot. destruct (quiet e) eqn:Hq.
  { apply (scheduler_single_slot st); [by apply quiet_step|done]. }
  destruct e; try done; simpl.
  - destruct (wsRef st) as [ws|]; [|done]. unfold onmessage.
    generalize (onmessage_calls m). intros cs. revert st Hslot.
    induction cs as [|c cs IH]; intros st Hslot; [done|].
    simpl. by apply IH, run_call_single_slot.
  - by apply fire_timer_single_slot.
Qed.

Lemma run_single_slot es : ∀ st, single_slot st → single_slot (run st es).
Proof.
  induction es as [|e es IH]; intros st Hslot; [done|].
  simpl. by apply IH, step_single_slot.
Qed.

End SingleSlot.

(** ** The text last analyzed *)

Section LastAnalyzed.

Lemma debounced_last cap t st :
  lastDetectedTextRef (detectDiseasesDebounced cap t st) = lastDetectedTextRef st.
Proof.
  destruct (cancel_pending_frame st) as (Hlast & _).
  unfold detectDiseasesDebounced.
  destruct (String.length t <? 10)%nat; [done|].
  by destruct (too_similar _).
Qed.

Lemma run_call_last cap st c :
  lastDetectedTextRef (run_call cap st c) = lastDetectedTextRef st.
Proof.
  destruct c; simpl; try done; [by destruct cap | apply debounced_last].
Qed.

Lemma onmessage_last cap m st :
  lastDetectedTextRef (onmessage cap m st) = lastDetectedTextRef st.
Proof.
  unfold onmessage. generalize (onmessage_calls m). intros cs. revert st.
  induction cs as [|c cs IH]; intros st; [done|].
  simpl. by rewrite IH, run_call_last.
Qed.

Lemma step_last st e :
  (∀ id, e ≠ TimerFired id) →
  lastDetectedTextRef (step st e) = lastDetectedTextRef st.
Proof.
  intros He. destruct (quiet e) eqn:Hq.
  { pose proof (quiet_step st e Hq) as H. unfold scheduler in H. congruence. }
  destruct e; try done; simpl.
  - destruct (wsRef st); [apply onmessage_last|done].
  - by destruct (He id).
Qed.

Lemma fire_timer_last id st :
  lastDetectedTextRef (fire_timer id st)
  = match filter (λ tm, timer_id tm = id) (timers st) with
    | tm :: _ => timer_text tm
    | [] => lastDetectedTextRef st
    end.
Proof.
  unfold fire_timer. destruct (filter _ (timers st)) as [|tm l]; [done|].
  unfold debounce_callback. by destruct (timer_session tm).
Qed.

Lemma debounced_gate_approved cap t st :
  single_slot st → gate_approved (detectDiseasesDebounced cap t st).
Proof.
  intros Hslot tm.
  destruct ((String.length t <? 10)%nat
            || too_similar (calculateSimilarity (lastDetectedTextRef st) t)) eqn:Hd.
  - rewrite (debounced_dropped cap t st Hd), cancel_pending_timers by done.
    by intros ?%not_elem_of_nil.
  - destruct (debounced_armed cap t st Hslot Hd) as (-> & _ & _ & -> & _).
    intros ->%list_elem_of_singleton. simpl.
    apply orb_false_iff in Hd as [Hlen ->]. split; [|done].
    apply Nat.ltb_ge in Hlen. lia.
Qed.

Lemma scheduler_gate_approved st st' :
  scheduler st' = scheduler st → gate_approved st → gate_approved st'.
Proof. unfold scheduler, gate_approved. intros [= -> _ _ ->]. done. Qed.

Lemma run_call_gate_approved cap st c :
  single_slot st → gate_approved st → gate_approved (run_call cap st c).
Proof.
  intros Hslot.
  destruct c; try by apply scheduler_gate_approved, run_call_scheduler.
  intros _. by apply debounced_gate_approved.
Qed.

Lemma fire_timer_gate_approved id st :
  single_slot st → gate_approved st → gate_approved (fire_timer id st).
Proof.
  unfold single_slot, gate_approved, fire_timer.
  destruct (timers st) as [|tm [|tm' l]] eqn:Htm; [| |done].
  - intros _ _ tm'. rewrite filter_nil, Htm. by intros ?%not_elem_of_nil.
  - intros _ Happ. rewrite !filter_cons, !filter_nil.
    destruct (decide (timer_id tm = id)) as [Heq|Hne].
    + destruct (decide (timer_id tm ≠ id)); [done|]. intros tm'.
      unfold debounce_callback. destruct (timer_session tm); simpl;
        by intros ?%not_elem_of_nil.
    + by rewrite Htm.
Qed.

Lemma step_gate_approved st e :
  single_slot st → gate_approved st → gate_approved (step st e).
Proof.
  intros Hslot Happ. destruct (quiet e) eqn:Hq.
  { apply (scheduler_gate_approved st); [by apply quiet_step|done]. }
  destruct e; try done; simpl.
  - destruct (wsRef st) as [ws|]; [|done]. unfold onmessage.
    generalize (onmessage_calls m). intros cs. revert st Hslot Happ.
    induction cs as [|c cs IH]; intros st Hslot Happ; [done|].
    simpl. apply IH; [by apply run_call_single_slot|by apply run_call_gate_approved].
  - by apply fire_timer_gate_approved.
Qed.

Lemma reachable_invariants es :
  single_slot (run initial es) ∧ gate_approved (run initial es).
Proof.
  assert (∀ st, single_slot st → gate_approved st →
            single_slot (run st es) ∧ gate_approved (run st es)) as H.
  { induction es as [|e es IH]; intros st Hslot Happ; [done|].
    simpl. apply IH; [by apply step_single_slot|by apply step_gate_approved]. }
  apply H; [exact I|]. by intros tm ?%not_elem_of_nil.
Qed.

End LastAnalyzed.

(** C10: the text last analyzed changes at one event only, the firing of a
    pending timer, which stores the text of that timer; on a page run from
    its start that text had passed the gate against the text it replaces.
    A final message and a debounced request, dropped or armed, leave the
    text last analyzed as it is. *)
Theorem last_analyzed_text_frame :
  (∀ st e, (∀ id, e ≠ TimerFired id) →
     lastDetectedTextRef (step st e) = lastDetectedTextRef st)
  ∧ (∀ st id,
       lastDetectedTextRef (step st (TimerFired id))
       = match filter (λ tm, timer_id tm = id) (timers st) with
         | tm :: _ => timer_text tm
         | [] => lastDetectedTextRef st
         end)
  ∧ (∀ es id,
       let st := run initial es in
       lastDetectedTextRef (step st (TimerFired id)) ≠ lastDetectedTextRef st →
       ∃ tm, timers st = [tm] ∧ timer_id tm = id
             ∧ lastDetectedTextRef (step st (TimerFired id)) = timer_text tm
             ∧ too_similar (calculateSimilarity (lastDetectedTextRef st)
                              (timer_text tm)) = false)
  ∧ (∀ cap m st, is_final m = true →
       lastDetectedTextRef (onmessage cap m st) = lastDetectedTextRef st)
  ∧ (∀ cap t st,
       lastDetectedTextRef (detectDiseasesDebounced cap t st) = lastDetectedTextRef st).
Proof.
  split; [exact step_last|]. split; [exact (λ st id, fire_timer_last id st)|].
  split; [|split; [intros; apply onmessage_last|exact debounced_last]].
  intros es id st. destruct (reachable_invariants es) as [Hslot Happ].
  fold st in Hslot, Happ. simpl. rewrite fire_timer_last.
  unfold single_slot in Hslot.
  destruct (timers st) as [|tm [|tm' l]] eqn:Htm; [by rewrite filter_nil| |done].
  rewrite filter_cons, filter_nil. destruct (decide (timer_id tm = id)); [|done].
  intros _. exists tm. repeat split; [done|]. apply Happ. rewrite Htm. by left.
Qed.

(** C1, as the code has it: a debounced request first cancels the pending
    timer and never changes the text last analyzed nor issues a call itself;
    it is dropped, leaving no timer, exactly when the text has fewer than 10
    code units or scores above 0.85 against the text last analyzed; otherwise
    one timer of 1500 ms is armed, and when it fires after events that make
    no newer debounced request, it records the text and issues the analysis
    call on it. *)
Theorem debounced_request (s : Session) (t : string) (es : list Event) :
  let st := run initial es in
  let st' := detectDiseasesDebounced (Some s) t st in
  let id := nextTimerId st in
  (∀ tm, tm ∈ timers st → tm ∉ timers st')
  ∧ lastDetectedTextRef st' = lastDetectedTextRef st
  ∧ (∀ sid tr, PostAnalyze sid tr ∈ effects st' → PostAnalyze sid tr ∈ effects st)
  ∧ single_slot st'
  ∧ if (String.length t <? 10)%nat
       || too_similar (calculateSimilarity (lastDetectedTextRef st) t)
    then timers st' = []
    else timers st' = [debounce_timer id (Some s) t]
         ∧ ∀ es', forallb quiet es' = true →
             let fired := step (run st' es') (TimerFired id) in
             lastDetectedTextRef fired = t
             ∧ effects fired = effects (run st' es') ++ [PostAnalyze (session_id s) t]
             ∧ timers fired = [].
Proof.
  intros st. apply debounced_from_single_slot, reachable_invariants.
Qed.

Lemma debounced_request_witness :
  let st := run initial Sample.armed_events in
  let st' := detectDiseasesDebounced (Some Sample.session1) Sample.other_words st in
  timers st' = [debounce_timer (nextTimerId st) (Some Sample.session1) Sample.other_words]
  ∧ lastDetectedTextRef (step (run st' []) (TimerFired (nextTimerId st)))
    = Sample.other_words.
Proof.
  intros st st'.
  pose proof (debounced_request Sample.session1 Sample.other_words
                Sample.armed_events) as H.
  cbv zeta in H. destruct H as (_ & _ & _ & _ & H).
  change (calculateSimilarity (lastDetectedTextRef (run initial Sample.armed_events))
            Sample.other_words) with 0%Q in H.
  change ((String.length Sample.other_words <? 10)%nat || too_similar 0)
    with false in H.
  cbv iota in H. destruct H as [Htm Hfire]. split; [exact Htm|].
  exact (proj1 (Hfire [] eq_refl)).
Defined.

(** As first worded the property fails: a text of nine code units scores 0
    against the empty text last analyzed, yet no timer is armed for it. *)
Lemma similarity_is_not_the_only_gate :
  ¬ (∀ (s : Session) (t : string) (st : AppState),
       single_slot st →
       too_similar (calculateSimilarity (lastDetectedTextRef st) t) = false →
       ∃ id, timers (detectDiseasesDebounced (Some s) t st)
             = [debounce_timer id (Some s) t]).
Proof.
  intros H.
  destruct (H Sample.session1 "a b c d e" Sample.recording) as [id Hid];
    [by vm_compute..|].
  vm_compute in Hid. discriminate Hid.
Qed.


(** ** The message handler *)

Section Handler.

Implicit Types (st : AppState) (m : Message) (c : Call).

Lemma debounced_page cap t st :
  page (detectDiseasesDebounced cap t st) = page st.
Proof.
  assert (page (cancel_pending st) = page st) as Hp
    by (unfold cancel_pending; by destruct (diseaseDetectionTimerRef st)).
  unfold detectDiseasesDebounced.
  destruct (String.length t <? 10)%nat; [done|].
  by destruct (too_similar _).
Qed.

Lemma run_call_history cap st c :
  liveTranscriptHistory (run_call cap st c)
  = liveTranscriptHistory st
    ++ match c with CallAppendHistory ft => [ft] | _ => [] end.
Proof.
  destruct c as [msg|ft|v|t|t]; simpl; rewrite ?app_nil_r; try done.
  - by destruct cap.
  - pose proof (debounced_page cap t st) as H. unfold page in H. congruence.
Qed.

Lemma run_call_wsRef cap st c : wsRef (run_call cap st c) = wsRef st.
Proof.
  destruct c as [msg|ft|v|t|t]; simpl; try done.
  - by destruct cap.
  - pose proof (debounced_page cap t st) as H. unfold page in H. congruence.
Qed.

Lemma onmessage_history cap m st :
  liveTranscriptHistory (onmessage cap m st)
  = liveTranscriptHistory st ++ appended_by m
  ∧ wsRef (onmessage cap m st) = wsRef st.
Proof.
  unfold onmessage, appended_by. generalize (onmessage_calls m).
  intros cs. revert st. induction cs as [|c cs IH]; intros st.
  - simpl. by rewrite app_nil_r.
  - simpl. destruct (IH (run_call cap st c)) as [-> ->].
    rewrite run_call_history, run_call_wsRef, <- app_assoc. by destruct c.
Qed.

(** The calls of the handler on a message it takes. *)
Lemma accepted_calls m :
  accepted m →
  onmessage_calls m
  = if is_final m then
      [CallAppendHistory (format m); CallSetLiveTranscript "";
       CallDetectDiseases (format m)]
    else
      CallSetLiveTranscript (format m) ::
      (if (5 <=? length (split_space (default "" (text m))))%nat
       then [CallDetectDiseasesDebounced (default "" (text m))] else []).
Proof.
  unfold accepted, format, onmessage_calls, transcript_calls, truthy_field.
  intros (Herr & Htext & [ft Hft]).
  destruct (text m) as [raw|]; [|done]. simpl in *. rewrite Htext, Hft. simpl.
  destruct (error m) as [e|]; [by rewrite Herr|done].
Qed.

Lemma debounced_in_interim_calls shown (b : bool) raw t :
  CallDetectDiseasesDebounced t
    ∈ CallSetLiveTranscript shown ::
      (if b then [CallDetectDiseasesDebounced raw] else [])
  ↔ b = true ∧ t = raw.
Proof.
  rewrite elem_of_cons. destruct b.
  - rewrite list_elem_of_singleton. split.
    + intros [?|[= ->]]; done.
    + intros [_ ->]. by right.
  - split; [intros [?|?%not_elem_of_nil]; done|intros [? _]; done].
Qed.

End Handler.

(** C4, as the code has it: a final message that carries no error, a text
    that is not empty and words that can be grouped has its formatted text
    appended to the history, clears the interim slot and issues the analysis
    call on the formatted text at once, whatever the text last analyzed is;
    the timers and the text last analyzed are not touched. *)
Theorem final_message (s : Session) (m : Message) (st : AppState) :
  accepted m → is_final m = true →
  let st' := onmessage (Some s) m st in
  liveTranscriptHistory st' = liveTranscriptHistory st ++ [format m]
  ∧ liveTranscript st' = ""
  ∧ effects st' = effects st ++ [PostAnalyze (session_id s) (format m)]
  ∧ scheduler st' = scheduler st.
Proof.
  intros Hacc Hfinal. unfold onmessage. rewrite (accepted_calls m Hacc), Hfinal.
  done.
Qed.

Lemma final_message_witness :
  let m := Sample.transcript "I have a cough"
             (Some [Sample.said "SPEAKER_2" "I"; Sample.said "SPEAKER_2" "have";
                    Sample.said "SPEAKER_1" "okay"]) true in
  liveTranscriptHistory (onmessage (Some Sample.session1) m Sample.recording)
  = liveTranscriptHistory Sample.recording ++ [format m].
Proof.
  intros m.
  refine (proj1 (final_message Sample.session1 m Sample.recording _ _)).
  - repeat split. vm_compute. eauto.
  - reflexivity.
Defined.

(** As first worded the property fails: a final message with a text that also
    carries an error is reported and nothing is analyzed. *)
Lemma final_message_with_error_not_analyzed :
  ¬ (∀ (s : Session) (m : Message) (st : AppState),
       is_final m = true → truthy_field (text m) = true →
       let st' := onmessage (Some s) m st in
       liveTranscriptHistory st' = liveTranscriptHistory st ++ [format m]
       ∧ liveTranscript st' = ""
       ∧ effects st' = effects st ++ [PostAnalyze (session_id s) (format m)]).
Proof.
  intros H.
  destruct (H Sample.session1 Sample.refused initial eq_refl eq_refl) as (Hh & _).
  vm_compute in Hh. discriminate Hh.
Qed.

(** Whatever else it carries, a message with an error is only reported. *)
Lemma message_with_error_only_reported cap (m : Message) (e : string) st :
  error m = Some e → truthy e = true →
  onmessage cap m st = emit (Alert ("Transcription error: " +:+ e)) st.
Proof. intros He Ht. unfold onmessage, onmessage_calls. by rewrite He, Ht. Qed.

(** A word tagged with a name that every object inherits stops the handler
    before any call: the message is lost. *)
Lemma inherited_tag_loses_message cap st :
  ¬ accepted Sample.inherited_tag ∧ onmessage cap Sample.inherited_tag st = st.
Proof. split; [|reflexivity]. intros (_ & _ & [ft Hft]). discriminate Hft. Qed.

(** C2, as the code has it: an interim message that carries no error, a
    text that is not empty and words that can be grouped sets the interim
    slot to the formatted text, and makes a debounced request, on the raw
    text, exactly when [split(' ')] cuts the raw text into five pieces or
    more. The four words of the scenario make none. *)
Theorem interim_message (s : Session) (m : Message) (st : AppState) :
  accepted m → is_final m = false →
  let raw := default "" (text m) in
  let shown := setLiveTranscript (format m) st in
  ((∃ t, CallDetectDiseasesDebounced t ∈ onmessage_calls m)
     ↔ (5 ≤ length (split_space raw))%nat)
  ∧ (∀ t, CallDetectDiseasesDebounced t ∈ onmessage_calls m → t = raw)
  ∧ onmessage (Some s) m st
    = (if (5 <=? length (split_space raw))%nat
       then detectDiseasesDebounced (Some s) raw shown else shown)
  ∧ liveTranscript (onmessage (Some s) m st) = format m
  ∧ onmessage_calls Sample.four_words
    = [CallSetLiveTranscript "Patient reports chest pain"].
Proof.
  intros Hacc Hfinal raw shown. unfold onmessage.
  rewrite (accepted_calls m Hacc), Hfinal. fold raw.
  split; [|split; [|split; [|split; [|done]]]].
  - rewrite <- Nat.leb_le. split.
    + intros [t Ht]. by apply debounced_in_interim_calls in Ht as [? _].
    + intros Hn. exists raw. by apply debounced_in_interim_calls.
  - intros t Ht. by apply debounced_in_interim_calls in Ht as [_ ?].
  - by destruct (5 <=? length (split_space raw))%nat.
  - destruct (5 <=? length (split_space raw))%nat; [|done]. simpl.
    pose proof (debounced_page (Some s) raw shown) as H.
    unfold page in H. subst shown. simpl in H. congruence.
Qed.

Lemma interim_message_witness :
  let m := Sample.transcript Sample.scenario_text None false in
  onmessage (Some Sample.session1) m Sample.recording
  = (if (5 <=? length (split_space (default "" (text m))))%nat
     then detectDiseasesDebounced (Some Sample.session1) (default "" (text m))
            (setLiveTranscript (format m) Sample.recording)
     else setLiveTranscript (format m) Sample.recording).
Proof.
  intros m.
  refine (proj1 (proj2 (proj2
            (interim_message Sample.session1 m Sample.recording _ _)))).
  - repeat split. vm_compute. eauto.
  - reflexivity.
Defined.

(** As first worded the property fails: three words two spaces apart are fewer
    than five tokens, yet the debounced request is made. *)
Lemma token_count_is_not_the_threshold :
  ¬ (∀ m : Message,
       accepted m → is_final m = false →
       (∃ t, CallDetectDiseasesDebounced t ∈ onmessage_calls m)
       ↔ (5 ≤ length (whitespace_tokens (default "" (text m))))%nat).
Proof.
  intros H. destruct (H Sample.double_spaced) as [Hreq _].
  - repeat split. vm_compute. eauto.
  - reflexivity.
  - assert (5 ≤ 3)%nat; [|lia].
    apply Hreq. exists "chest  pain  today". vm_compute. right. left.
Qed.

(** The other way round: five words a tab apart make no request. *)
Lemma tabs_are_not_counted :
  length (whitespace_tokens (default "" (text Sample.tabbed))) = 5%nat
  ∧ onmessage_calls Sample.tabbed
    = [CallSetLiveTranscript (default "" (text Sample.tabbed))].
Proof. split; reflexivity. Qed.

(** ** The formatting of a message *)

Section Formatting.

Import JsObject.

Implicit Types (o : list (string * list string)) (k tag : string) (v : list string).

(** The words that carry [tag], in the order of the message. *)
Let said_by tag (ws : list Word) : list string :=
  word <$> filter (λ w, speaker_of w = tag) ws.

Lemma own_set_eq o k v : own (set o k v) k = Some v.
Proof.
  induction o as [|[k' v'] o IH]; simpl.
  - by rewrite String.eqb_refl.
  - destruct (String.eqb k' k) eqn:Hk; simpl; by rewrite Hk.
Qed.

Lemma own_set_ne o k k' v : k ≠ k' → own (set o k v) k' = own o k'.
Proof.
  intros Hne. induction o as [|[k0 v0] o IH]; simpl.
  - destruct (String.eqb_spec k k'); done.
  - destruct (String.eqb_spec k0 k) as [->|Hk0]; simpl.
    + destruct (String.eqb_spec k k'); done.
    + by rewrite IH.
Qed.

Lemma keys_set o k v :
  fst <$> set o k v
  = match own o k with Some _ => fst <$> o | None => (fst <$> o) ++ [k] end.
Proof.
  induction o as [|[k' v'] o IH]; [done|]. cbn [set own].
  destruct (String.eqb_spec k' k) as [->|Hk]; [done|].
  rewrite !fmap_cons, IH. by destruct (own o k).
Qed.

Lemma own_None o k : own o k = None ↔ k ∉ fst <$> o.
Proof.
  induction o as [|[k' v'] o IH]; simpl.
  - split; [intros _; apply not_elem_of_nil|done].
  - rewrite not_elem_of_cons. destruct (String.eqb_spec k' k) as [->|Hk].
    + split; [done|]. by intros [? _].
    + rewrite IH. split; [by intros ?; split|by intros [_ ?]].
Qed.

Lemma NoDup_keys_set o k v : NoDup (fst <$> o) → NoDup (fst <$> set o k v).
Proof.
  intros Ho. rewrite keys_set. destruct (own o k) eqn:Hk; [done|].
  apply NoDup_app. split; [done|]. split; [|apply NoDup_singleton].
  intros x Hx ->%list_elem_of_singleton. by apply own_None in Hk.
Qed.

Lemma own_elem_of o k v : NoDup (fst <$> o) → (k, v) ∈ o ↔ own o k = Some v.
Proof.
  induction o as [|[k' v'] o IH]; simpl; intros Ho.
  - split; [by intros ?%not_elem_of_nil|done].
  - apply NoDup_cons in Ho as [Hk' Ho]. rewrite elem_of_cons.
    destruct (String.eqb_spec k' k) as [->|Hk].
    + split; [intros [[= ->]|Hin]; [done|]|by intros [= ->]; left].
      destruct Hk'. by apply (list_elem_of_fmap_2 fst) in Hin.
    + rewrite <- IH by done. split; [intros [[= -> ->]|?]; done|by right].
Qed.

Lemma group_word_spec o w o1 :
  group_word o w = Some o1 →
  (NoDup (fst <$> o) → NoDup (fst <$> o1))
  ∧ ∀ tag, own o1 tag
           = if decide (speaker_of w = tag)
             then Some (default [] (own o tag) ++ [word w])
             else own o tag.
Proof.
  unfold group_word. intros Hg.
  assert (o1 = set o (speaker_of w) (default [] (own o (speaker_of w)) ++ [word w]))
    as ->.
  { destruct (own o (speaker_of w)); [by injection Hg|].
    destruct (inherited (speaker_of w)); [done|by injection Hg]. }
  split; [apply NoDup_keys_set|]. intros tag.
  destruct (decide (speaker_of w = tag)) as [<-|Hne];
    [apply own_set_eq|by apply own_set_ne].
Qed.

Lemma group_words_spec ws : ∀ o o',
  group_words o ws = Some o' → NoDup (fst <$> o) →
  NoDup (fst <$> o')
  ∧ ∀ tag, own o' tag
           = match own o tag, said_by tag ws with
             | None, [] => None
             | stored, l => Some (default [] stored ++ l)
             end.
Proof.
  subst said_by. induction ws as [|w ws IH]; intros o o' Hg Ho; simpl in Hg.
  - injection Hg as <-. split; [done|]. intros tag. rewrite filter_nil. simpl.
    destruct (own o tag); by rewrite ?app_nil_r.
  - destruct (group_word o w) as [o1|] eqn:Hw; [|done].
    apply group_word_spec in Hw as [Hnd Hown].
    destruct (IH o1 o' Hg (Hnd Ho)) as [Hnd' Hown']. split; [done|].
    intros tag. rewrite Hown', Hown, filter_cons.
    destruct (decide (speaker_of w = tag)) as [_|_]; simpl.
    + rewrite <- app_assoc. simpl. by destruct (own o tag).
    + done.
Qed.

Lemma insert_index_perm e l : insert_index e l ≡ₚ e :: l.
Proof.
  induction l as [|e' l IH]; simpl; [done|].
  destruct (e.1 <=? e'.1)%N; [done|]. rewrite IH. apply Permutation_swap.
Qed.

Lemma sort_index_perm l : foldr insert_index [] l ≡ₚ l.
Proof.
  induction l as [|e l IH]; simpl; [done|]. by rewrite insert_index_perm, IH.
Qed.

Lemma indexed_filter o :
  snd <$> omap with_index o = filter (λ e, array_index e.1 ≠ None) o.
Proof.
  induction o as [|e o IH]; [done|]. rewrite filter_cons.
  change (omap with_index (e :: o))
    with (match with_index e with
          | Some y => y :: omap with_index o
          | None => omap with_index o
          end).
  unfold with_index at 1. destruct (array_index e.1) eqn:He.
  - rewrite decide_True by done. by rewrite fmap_cons, IH.
  - rewrite decide_False by (by intros []). done.
Qed.

(** [Object.entries] lists every own property once. *)
Lemma entries_perm o : entries o ≡ₚ o.
Proof.
  unfold entries. rewrite sort_index_perm, indexed_filter.
  rewrite <- (filter_app_complement (λ e, array_index e.1 ≠ None) o) at 3.
  f_equiv. apply reflexive_eq, list_filter_iff. intros e.
  destruct (array_index e.1) as [n|]; split; try done.
  - intros Hn. by destruct Hn.
  - intros _ Hn. by apply Hn.
Qed.

Lemma own_Some_key o k v : own o k = Some v → k ∈ fst <$> o.
Proof.
  intros Hk. destruct (decide (k ∈ fst <$> o)) as [|Hno]; [done|].
  apply own_None in Hno. congruence.
Qed.

(** Grouping fails exactly when some word is tagged with an inherited name. *)
Lemma group_words_is_Some ws : ∀ o,
  Forall (λ k, inherited k = false) (fst <$> o) →
  is_Some (group_words o ws) ↔ Forall (λ w, inherited (speaker_of w) = false) ws.
Proof.
  induction ws as [|w ws IH]; intros o Ho; simpl.
  - split; [constructor|eauto].
  - rewrite Forall_cons. unfold group_word.
    destruct (own o (speaker_of w)) as [l|] eqn:Hown.
    + assert (inherited (speaker_of w) = false) as Hw.
      { rewrite Forall_forall in Ho. eapply Ho, own_Some_key, Hown. }
      rewrite IH; [tauto|]. by rewrite keys_set, Hown.
    + destruct (inherited (speaker_of w)) eqn:Hw.
      * split; [by intros [? ?]|by intros [? _]].
      * rewrite IH; [tauto|]. rewrite keys_set, Hown.
        apply Forall_app. split; [done|]. by constructor.
Qed.

Lemma formatText_is_Some raw ws :
  is_Some (formatText raw ws)
  ↔ Forall (λ w, inherited (speaker_of w) = false) (default [] ws).
Proof.
  destruct ws as [[|w r]|]; try (split; [constructor|by eexists]).
  change (default [] (Some (w :: r))) with (w :: r).
  rewrite <- (group_words_is_Some (w :: r) []) by constructor.
  unfold formatText. destruct (group_words [] (w :: r)); split; eauto;
    by intros [? ?].
Qed.

End Formatting.

(** ** The order of the lines of a formatted text *)

Section ArrayIndex.

Import JsObject.

Local Open Scope N_scope.

Lemma digit_spec c d :
  digit c = Some d → d < 10 ∧ nat_of_ascii c = (48 + N.to_nat d)%nat.
Proof.
  unfold digit.
  destruct ((48 <=? nat_of_ascii c)%nat && (nat_of_ascii c <=? 57)%nat) eqn:Hc;
    [|done].
  apply andb_true_iff in Hc as [Hlo%Nat.leb_le Hhi%Nat.leb_le].
  intros [= <-]. lia.
Qed.

Lemma digit_inj c1 c2 d : digit c1 = Some d → digit c2 = Some d → c1 = c2.
Proof.
  intros [_ H1]%digit_spec [_ H2]%digit_spec.
  rewrite <- (ascii_nat_embedding c1), <- (ascii_nat_embedding c2). congruence.
Qed.

Lemma digit_zero c : digit c = Some 0 → c = "0"%char.
Proof. intros Hc. by apply (digit_inj c "0" 0). Qed.

(** The value of a string of digits lies between what has been read,
    shifted, and the next number shifted. *)
Lemma decimal_bounds s : ∀ acc n,
  decimal acc s = Some n →
  acc * 10 ^ N.of_nat (String.length s) ≤ n
  ∧ n < (acc + 1) * 10 ^ N.of_nat (String.length s).
Proof.
  induction s as [|c r IH]; intros acc n; simpl decimal.
  - intros [= <-]. simpl. lia.
  - destruct (digit c) as [d|] eqn:Hd; [|done].
    intros [Hlo Hhi]%IH. apply digit_spec in Hd as [Hd _].
    cbn [String.length]. rewrite Nat2N.inj_succ, N.pow_succ_r'.
    set (P := 10 ^ N.of_nat (String.length r)) in *. nia.
Qed.

Lemma decimal_inj s1 : ∀ s2 a1 a2 n,
  String.length s1 = String.length s2 →
  decimal a1 s1 = Some n → decimal a2 s2 = Some n → a1 = a2 ∧ s1 = s2.
Proof.
  induction s1 as [|c1 r1 IH]; intros [|c2 r2] a1 a2 n Hlen; try done;
    simpl decimal.
  - by intros [= <-] [= <-].
  - destruct (digit c1) as [d1|] eqn:Hd1; [|done].
    destruct (digit c2) as [d2|] eqn:Hd2; [|done].
    intros H1 H2. injection Hlen as Hlen.
    destruct (IH r2 _ _ n Hlen H1 H2) as [Ha <-].
    pose proof (digit_spec _ _ Hd1) as [? _].
    pose proof (digit_spec _ _ Hd2) as [? _].
    assert (a1 = a2 ∧ d1 = d2) as [<- <-] by lia.
    split; [done|]. f_equal. by apply (digit_inj c1 c2 d1).
Qed.

Lemma array_index_cons c r :
  array_index (String c r)
  = if Ascii.eqb c "0" then
      match r with EmptyString => Some 0 | _ => None end
    else if (String.length (String c r) <=? 10)%nat then
      match decimal 0 (String c r) with
      | Some n => if n <=? 4294967294 then Some n else None
      | None => None
      end
    else None.
Proof.
  destruct c as [[] [] [] [] [] [] [] []]; reflexivity || by destruct r.
Qed.

(** An array index is zero, written 0, or a positive number written
    without leading zero. *)
Lemma array_index_Some k n :
  array_index k = Some n →
  (k = "0"%string ∧ n = 0)
  ∨ ∃ c r, k = String c r ∧ decimal 0 k = Some n
           ∧ 10 ^ N.of_nat (String.length r) ≤ n
           ∧ n < 10 ^ N.of_nat (S (String.length r)).
Proof.
  destruct k as [|c r]; [done|]. rewrite array_index_cons.
  destruct (Ascii.eqb_spec c "0") as [->|Hc].
  - destruct r; [|done]. intros [= <-]. by left.
  - destruct (String.length (String c r) <=? 10)%nat; [|done].
    destruct (decimal 0 (String c r)) as [n'|] eqn:Hn; [|done].
    destruct (n' <=? 4294967294); [|done]. intros [= <-]. right.
    exists c, r. split; [done|]. split; [done|].
    simpl in Hn. destruct (digit c) as [d|] eqn:Hd; [|done].
    assert (d ≠ 0) as Hd0 by (intros ->; by apply digit_zero in Hd).
    pose proof (digit_spec _ _ Hd) as [Hd10 _].
    apply decimal_bounds in Hn as [Hlo Hhi].
    rewrite Nat2N.inj_succ, N.pow_succ_r'.
    set (P := 10 ^ N.of_nat (String.length r)) in *. nia.
Qed.

(** Two keys that are the same array index are the same key. *)
Lemma array_index_inj k1 k2 n :
  array_index k1 = Some n → array_index k2 = Some n → k1 = k2.
Proof.
  intros [[-> ->]|(c1 & r1 & -> & Hn1 & Hlo1 & Hhi1)]%array_index_Some
         [[-> Hn]|(c2 & r2 & -> & Hn2 & Hlo2 & Hhi2)]%array_index_Some;
    try done.
  - pose proof (N.pow_nonzero 10 (N.of_nat (String.length r2))).
    lia.
  - pose proof (N.pow_nonzero 10 (N.of_nat (String.length r1))).
    lia.
  - assert (String.length r1 = String.length r2) as Hlen.
    { destruct (Nat.lt_trichotomy (String.length r1) (String.length r2))
        as [Hlt|[?|Hlt]]; [|done|];
        [assert (10 ^ N.of_nat (S (String.length r1))
                 ≤ 10 ^ N.of_nat (String.length r2))
         |assert (10 ^ N.of_nat (S (String.length r2))
                  ≤ 10 ^ N.of_nat (String.length r1))];
        try (apply N.pow_le_mono_r; lia); lia. }
    eapply (decimal_inj (String c1 r1) (String c2 r2) 0 0 n); [|done..].
    simpl. by rewrite Hlen.
Qed.

End ArrayIndex.

Section EntriesOrder.

Import JsObject.

Implicit Types (o : list (string * list string)) (k tag : string).

Lemma filter_not_in_snoc (seen l : list string) k :
  filter (λ x, x ∉ seen ++ [k]) l
  = filter (λ x, x ∉ seen) (filter (λ x, x ≠ k) l).
Proof.
  rewrite list_filter_filter. apply list_filter_iff. intros x.
  rewrite elem_of_app, list_elem_of_singleton. tauto.
Qed.

Lemma filter_not_in_seen (seen l : list string) k :
  k ∈ seen →
  filter (λ x, x ∉ seen) (filter (λ x, x ≠ k) l) = filter (λ x, x ∉ seen) l.
Proof.
  intros Hk. rewrite list_filter_filter. apply list_filter_iff. intros x.
  split; [tauto|]. intros Hx. split; [done|]. by intros ->.
Qed.

Lemma filter_all {A} (P : A → Prop) `{∀ x, Decision (P x)} (l : list A) :
  (∀ x, P x) → filter P l = l.
Proof.
  intros HP. induction l as [|x l IH]; [done|].
  by rewrite filter_cons, decide_True, IH.
Qed.

(** The grouping creates the properties in the order in which their tags
    first occur. *)
Lemma group_words_keys ws : ∀ o o',
  group_words o ws = Some o' →
  fst <$> o'
  = (fst <$> o)
    ++ filter (λ tag, tag ∉ fst <$> o) (first_occurrences (speaker_of <$> ws)).
Proof.
  induction ws as [|w ws IH]; intros o o' Hg; simpl in Hg.
  - injection Hg as <-. by rewrite app_nil_r.
  - unfold group_word in Hg. rewrite fmap_cons. cbn [first_occurrences].
    rewrite filter_cons.
    destruct (own o (speaker_of w)) as [l|] eqn:Hown.
    + apply IH in Hg. rewrite keys_set, Hown in Hg.
      apply own_Some_key in Hown.
      rewrite decide_False by tauto. by rewrite filter_not_in_seen.
    + destruct (inherited (speaker_of w)); [done|].
      apply IH in Hg. rewrite keys_set, Hown in Hg.
      apply own_None in Hown. rewrite decide_True by done.
      by rewrite Hg, filter_not_in_snoc, <- app_assoc.
Qed.

Lemma keys_filter (P : string → Prop)
    `{Hentry : ∀ e : string * list string, Decision (P e.1)}
    `{Hkey : ∀ k, Decision (P k)} o :
  fst <$> filter (λ e, P e.1) o = filter P (fst <$> o).
Proof.
  induction o as [|e o IH]; [done|]. rewrite fmap_cons, !filter_cons.
  repeat case_decide; try done; by rewrite ?fmap_cons, IH.
Qed.

Let by_index (x y : N * (string * list string)) : Prop := (x.1 < y.1)%N.

Lemma insert_index_sorted e l :
  StronglySorted by_index l → e.1 ∉ fst <$> l →
  StronglySorted by_index (insert_index e l).
Proof.
  induction 1 as [|e' l Hl IH Hall]; intros He; simpl.
  - repeat constructor.
  - rewrite fmap_cons, not_elem_of_cons in He. destruct He as [Hne He].
    destruct (N.leb_spec e.1 e'.1) as [Hle|Hlt].
    + assert (by_index e e') as Hlt by (unfold by_index; lia).
      constructor; [by constructor|]. constructor; [done|].
      eapply Forall_impl; [exact Hall|]. unfold by_index in *. intros; lia.
    + constructor; [by apply IH|].
      rewrite insert_index_perm. by constructor.
Qed.

Lemma sort_index_sorted l :
  NoDup (fst <$> l) → StronglySorted by_index (foldr insert_index [] l).
Proof.
  induction l as [|e l IH]; [constructor|].
  rewrite fmap_cons. intros [He Hl]%NoDup_cons. cbn [foldr].
  apply insert_index_sorted; [by apply IH|]. by rewrite sort_index_perm.
Qed.

Lemma sorted_indices l :
  StronglySorted by_index l → StronglySorted N.lt (fst <$> l).
Proof.
  induction 1 as [|e l Hl IH Hall]; [constructor|].
  rewrite fmap_cons. constructor; [done|]. by apply Forall_fmap.
Qed.

Lemma with_index_elem_of o n e :
  (n, e) ∈ omap with_index o ↔ e ∈ o ∧ array_index e.1 = Some n.
Proof.
  rewrite list_elem_of_omap. unfold with_index. split.
  - intros (e' & He' & Hn). destruct (array_index e'.1) eqn:Hi; [|done].
    by injection Hn as -> ->.
  - intros [He Hn]. exists e. by rewrite Hn.
Qed.

Lemma indices_NoDup o :
  NoDup (fst <$> o) → NoDup (fst <$> omap with_index o).
Proof.
  induction o as [|e o IH]; [constructor|].
  rewrite fmap_cons. intros [He Ho]%NoDup_cons.
  change (omap with_index (e :: o))
    with (match with_index e with
          | Some y => y :: omap with_index o
          | None => omap with_index o
          end).
  unfold with_index at 1. destruct (array_index e.1) as [n|] eqn:Hn; [|by apply IH].
  rewrite fmap_cons. apply NoDup_cons. split; [|by apply IH].
  intros ([n' e'] & Heq & [He' Hn']%with_index_elem_of)%list_elem_of_fmap.
  simpl in Heq. subst n'. destruct He.
  rewrite (array_index_inj _ _ _ Hn Hn'). by apply list_elem_of_fmap_2.
Qed.

(** The keys of [Object.entries]: first those that are array indices, from
    the least index to the greatest, then the others as created. *)
Lemma entries_keys o :
  NoDup (fst <$> o) →
  ∃ idx ns,
    fst <$> entries o = idx ++ filter (λ k, array_index k = None) (fst <$> o)
    ∧ array_index <$> idx = Some <$> ns
    ∧ StronglySorted N.lt ns.
Proof.
  intros Ho. unfold entries.
  set (sorted := foldr insert_index [] (omap with_index o)).
  exists (fst <$> (snd <$> sorted)), (fst <$> sorted).
  split; [by rewrite fmap_app, (keys_filter (λ k, array_index k = None))|]. split.
  - assert (Forall (λ x, array_index x.2.1 = Some x.1) sorted) as Hall.
    { apply Forall_forall. intros [n e] Hx. subst sorted.
      rewrite sort_index_perm in Hx. by apply with_index_elem_of in Hx as [_ ?]. }
    induction Hall as [|x l Hx _ IH]; [done|].
    rewrite !fmap_cons. by rewrite Hx, IH.
  - by apply sorted_indices, sort_index_sorted, indices_NoDup.
Qed.

(** The text of a message that has words: one line per tag that occurs,
    holding the words of that tag in the order of the message; the lines of
    the tags that are array indices come first, from the least index to the
    greatest, then those of the other tags, in the order in which the tags
    first occur. *)
Lemma formatText_lines raw w r ft :
  formatText raw (Some (w :: r)) = Some ft →
  ∃ groups idx ns,
    ft = join newline (render_group <$> groups)
    ∧ NoDup (fst <$> groups)
    ∧ (∀ tag l, (tag, l) ∈ groups
                ↔ l ≠ []
                  ∧ l = word <$> filter (λ w', speaker_of w' = tag) (w :: r))
    ∧ fst <$> groups
      = idx ++ filter (λ k, array_index k = None)
                 (first_occurrences (speaker_of <$> w :: r))
    ∧ array_index <$> idx = Some <$> ns
    ∧ StronglySorted N.lt ns.
Proof.
  unfold formatText. destruct (group_words [] (w :: r)) as [g|] eqn:Hg; [|done].
  intros [= <-].
  destruct (group_words_spec _ _ _ Hg (NoDup_nil_2 (A:=string))) as [Hnd Hown].
  destruct (entries_keys g Hnd) as (idx & ns & Hkeys & Hidx & Hns).
  pose proof (group_words_keys _ _ _ Hg) as Hcreated. simpl in Hcreated.
  rewrite filter_all in Hcreated by (intros; apply not_elem_of_nil).
  exists (entries g), idx, ns.
  split; [done|]. split; [by rewrite entries_perm|].
  split; [|by rewrite Hkeys, Hcreated].
  intros tag l. rewrite entries_perm, (own_elem_of g tag l Hnd), Hown.
  simpl own.
  destruct (word <$> filter (λ w', speaker_of w' = tag) (w :: r)) as [|x l'];
    simpl.
  - split; [done|]. by intros [? ->].
  - split; [by intros [= <-]|by intros [_ ->]].
Qed.

End EntriesOrder.

(** ** The history of final texts *)

Section History.

Lemma appended_interim m : is_final m = false → appended_by m = [].
Proof.
  unfold appended_by, onmessage_calls, transcript_calls. intros ->.
  destruct (error m) as [e|]; [destruct (truthy e); [done|]|];
    (destruct (text m) as [raw|]; [|done]; destruct (truthy raw); [|done];
     destruct (formatText raw (words m)); [|done];
     by destruct (5 <=? _)%nat).
Qed.

Lemma appended_final m :
  accepted m → is_final m = true → appended_by m = [format m].
Proof.
  intros Hacc Hfinal. unfold appended_by.
  by rewrite (accepted_calls m Hacc), Hfinal.
Qed.

Lemma generation_history render soap rec st :
  liveTranscriptHistory
    (generateRecommendations render rec (generateSOAP render soap st))
  = liveTranscriptHistory st
  ∧ wsRef (generateRecommendations render rec (generateSOAP render soap st))
    = wsRef st.
Proof.
  unfold generateRecommendations, generateSOAP.
  destruct (session render); [|done].
  destruct (no_transcript _); [done|].
  by destruct soap, rec as [| |[l|]].
Qed.

Lemma step_history st e :
  is_Some (wsRef st) →
  liveTranscriptHistory (step st e)
  = liveTranscriptHistory st
    ++ match e with WsMessage m => appended_by m | _ => [] end
  ∧ is_Some (wsRef (step st e)).
Proof.
  intros [ws Hws].
  destruct e as [r|mic| |m|code| |id|r|soap rec]; simpl;
    rewrite ?app_nil_r, ?Hws.
  - by destruct r.
  - unfold startRecording. destruct (session st); [destruct mic|]; simpl;
      rewrite ?Hws; eauto.
  - unfold with_readyState. rewrite Hws. destruct ws as [[] ?]; simpl;
      rewrite ?Hws; eauto.
  - destruct (onmessage_history (Some (ws_session ws)) m st) as [-> ->].
    rewrite Hws. eauto.
  - unfold with_readyState. rewrite Hws. simpl. eauto.
  - simpl. rewrite Hws. eauto.
  - unfold fire_timer. destruct (filter _ (timers st)) as [|tm l];
      [rewrite Hws; eauto|].
    unfold debounce_callback. destruct (timer_session tm); simpl;
      rewrite Hws; eauto.
  - destruct r as [| |[[|d ds]|]]; simpl; rewrite Hws; eauto.
  - unfold stopRecording.
    assert (∃ ws', wsRef (finalize_socket (disconnect_nodes st)) = Some ws'
              ∧ liveTranscriptHistory (finalize_socket (disconnect_nodes st))
                = liveTranscriptHistory st) as (ws' & Hws' & Hh).
    { unfold finalize_socket, disconnect_nodes.
      destruct (audioNodesRef st) as [[[] []]|]; simpl; rewrite Hws;
        destruct ws as [[] ?]; simpl; eauto. }
    destruct (session st).
    + destruct (generation_history st soap rec
        (setIsLiveTranscribing false (setIsConnected false (setIsRecording false
           (finalize_socket (disconnect_nodes st)))))) as [-> ->].
      simpl. rewrite Hh, Hws'. eauto.
    + simpl. rewrite Hh, Hws'. eauto.
Qed.

Lemma carried_accepted m : carries_text m = true → groupable m → accepted m.
Proof.
  unfold carries_text, groupable, accepted.
  intros [Herr Htext]%andb_true_iff Hg. apply negb_true_iff in Herr.
  split; [done|]. split; [done|]. by apply formatText_is_Some.
Qed.

Lemma appended_not_carried m : carries_text m = false → appended_by m = [].
Proof.
  unfold carries_text, appended_by, onmessage_calls, transcript_calls,
    truthy_field.
  destruct (error m) as [e|]; [destruct (truthy e); [done|]|];
    (destruct (text m) as [raw|]; [|done]; by destruct (truthy raw)).
Qed.

(** Whatever else happens in between, the history grows by the formatted
    texts of the final messages that carry a text, in the order of their
    delivery. *)
Lemma run_history es : ∀ st,
  is_Some (wsRef st) →
  (∀ m, WsMessage m ∈ es → is_final m = true → carries_text m = true →
        groupable m) →
  liveTranscriptHistory (run st es)
  = liveTranscriptHistory st
    ++ (format <$> filter (λ m, carries_text m = true) (final_messages es)).
Proof.
  induction es as [|e es IH]; intros st Hws Hacc.
  - simpl. by rewrite app_nil_r.
  - destruct (step_history st e Hws) as [Hh Hws'].
    change (run st (e :: es)) with (run (step st e) es).
    rewrite IH; [|done|intros m Hm; apply Hacc; by right]. rewrite Hh, <- app_assoc.
    f_equal. unfold final_messages.
    destruct e as [| | |m| | | | |]; try done.
    change (omap ?f (WsMessage m :: es))
      with (match (if is_final m then Some m else None) with
            | Some y => y :: omap f es
            | None => omap f es
            end).
    destruct (is_final m) eqn:Hfinal; [|by rewrite appended_interim].
    rewrite filter_cons. destruct (carries_text m) eqn:Hm.
    + rewrite decide_True by done.
      rewrite appended_final; [done| |done].
      apply carried_accepted; [done|]. apply Hacc; [left|done..].
    + rewrite decide_False by done. by rewrite appended_not_carried.
Qed.

End History.

(** C5, as the code has it: on a page that has its socket, whatever events
    are delivered, if no final message that carries a text has a word tagged
    with a name inherited from [Object.prototype], the history grows by
    exactly the formatted texts of the final messages that carry no error
    and a text that is not empty, in the order of their delivery; every
    other final message appends nothing. The formatted text is the raw text
    when no words are given; otherwise it is one line per speaker tag that
    occurs (the tag read as SPEAKER_1 when missing), made of the label,
    Patient for SPEAKER_2 and Doctor for any other tag, and of the words of
    that tag in order. The lines come in the order of [Object.entries]: the
    tags that are array indices first, from the least index to the greatest,
    then the other tags in the order in which they first occur. *)
Theorem history_order (es : list Event) (st : AppState) :
  is_Some (wsRef st) →
  (∀ m, WsMessage m ∈ es → is_final m = true → carries_text m = true →
        groupable m) →
  liveTranscriptHistory (run st es)
  = liveTranscriptHistory st
    ++ (format <$> filter (λ m, carries_text m = true) (final_messages es))
  ∧ (∀ m, groupable m →
       match words m with
       | Some (w :: r) =>
           ∃ groups idx ns,
             format m = join newline (render_group <$> groups)
             ∧ NoDup (fst <$> groups)
             ∧ (∀ tag l, (tag, l) ∈ groups
                         ↔ l ≠ []
                           ∧ l = word <$> filter (λ w', speaker_of w' = tag) (w :: r))
             ∧ fst <$> groups
               = idx ++ filter (λ k, JsObject.array_index k = None)
                          (first_occurrences (speaker_of <$> w :: r))
             ∧ JsObject.array_index <$> idx = Some <$> ns
             ∧ StronglySorted N.lt ns
       | _ => format m = default "" (text m)
       end)
  ∧ (∀ tag l, render_group (tag, l) = speakerLabel tag +:+ ": " +:+ join " " l)
  ∧ speakerLabel "SPEAKER_2" = "Patient"
  ∧ (∀ tag, tag ≠ "SPEAKER_2" → speakerLabel tag = "Doctor")
  ∧ (∀ w, speaker_tag w = None → speaker_of w = "SPEAKER_1").
Proof.
  intros Hws Hacc. split; [by apply run_history|].
  split; [|split; [done|split; [done|split]]].
  - intros m Hm.
    destruct (proj2 (formatText_is_Some (default "" (text m)) (words m)) Hm)
      as [ft Hft].
    unfold format. rewrite Hft. simpl.
    destruct (words m) as [[|w r]|]; [by injection Hft| |by injection Hft].
    by apply (formatText_lines (default "" (text m))).
  - intros tag Htag. unfold speakerLabel.
    by destruct (String.eqb_spec tag "SPEAKER_2").
  - intros w Hw. unfold speaker_of. by rewrite Hw.
Qed.

Lemma history_order_witness :
  liveTranscriptHistory
    (run Sample.recording
       [WsMessage Sample.four_words; WsMessage Sample.two_speakers;
        WsMessage Sample.silent; WsMessage Sample.refused;
        WsMessage (Sample.transcript "Thank you" None true)])
  = liveTranscriptHistory Sample.recording
    ++ (format <$> filter (λ m, carries_text m = true)
          (final_messages
             [WsMessage Sample.four_words; WsMessage Sample.two_speakers;
              WsMessage Sample.silent; WsMessage Sample.refused;
              WsMessage (Sample.transcript "Thank you" None true)])).
Proof.
  refine (proj1 (history_order _ Sample.recording _ _)).
  - vm_compute. eauto.
  - intros m Hm Hfinal Htext.
    apply elem_of_cons in Hm as [[= ->]|Hm]; [done|].
    apply elem_of_cons in Hm as [[= ->]|Hm]; [repeat constructor|].
    apply elem_of_cons in Hm as [[= ->]|Hm]; [done|].
    apply elem_of_cons in Hm as [[= ->]|Hm]; [done|].
    apply list_elem_of_singleton in Hm as [= ->]. constructor.
Defined.

(** The same run, computed: the final message without text and the one
    with an error leave no line between the two texts that are kept. *)
Example history_skips_silent_and_refused :
  liveTranscriptHistory
    (run Sample.recording
       [WsMessage Sample.four_words; WsMessage Sample.two_speakers;
        WsMessage Sample.silent; WsMessage Sample.refused;
        WsMessage (Sample.transcript "Thank you" None true)])
  = ["Patient: I have a cough" +:+ newline +:+ "Doctor: okay"; "Thank you"].
Proof. reflexivity. Qed.

(** As first worded the property fails: a final message without text appends
    nothing, not its (empty) formatted text. *)
Lemma final_message_without_text_not_appended :
  ¬ (∀ (fs : list Message) (st : AppState),
       is_Some (wsRef st) →
       Forall (λ m, is_final m = true) fs →
       liveTranscriptHistory (run st (WsMessage <$> fs))
       = liveTranscriptHistory st ++ (format <$> fs)).
Proof.
  intros H. specialize (H [Sample.silent] Sample.recording).
  vm_compute in H. discriminate H; [eauto|]. by constructor.
Qed.

Example two_speakers_formatted :
  format Sample.two_speakers
  = "Patient: I have a cough" +:+ newline +:+ "Doctor: okay".
Proof. reflexivity. Qed.

(** Array-index tags come first in [Object.entries], in numeric order. *)
Example numeric_tags_first :
  formatText "x" (Some [Sample.said "SPEAKER_2" "hello"; Sample.said "7" "seven";
                        Sample.said "10" "ten"; Sample.said "SPEAKER_2" "there";
                        Sample.said "3" "three"])
  = Some (join newline ["Doctor: three"; "Doctor: seven"; "Doctor: ten";
                        "Patient: hello there"]).
Proof. reflexivity. Qed.

(** ** The end of a recording *)

Section Stop.

Implicit Types (st : AppState) (l : list Effect).

Lemma teardown_effects st :
  ∃ nodes sock,
    effects (finalize_socket (disconnect_nodes st)) = effects st ++ nodes ++ sock
    ∧ Forall (λ e, is_socket_call e = false ∧ is_generation_request e = false) nodes
    ∧ Forall (λ e, is_generation_request e = false) sock
    ∧ sock = match wsRef st with
             | Some {| readyState := OPEN |} =>
                 [WsSend "END_OF_STREAM"; WsClose 1000 "Client stopped"]
             | Some {| readyState := CONNECTING |} =>
                 [WsClose 1000 "Client stopped"]
             | _ => []
             end.
Proof.
  unfold finalize_socket, disconnect_nodes.
  destruct (audioNodesRef st) as [[src prc]|].
  - exists ((if src then [SourceDisconnect] else [])
            ++ (if prc then [ProcessorDisconnect] else [])).
    destruct src, prc; simpl;
      (destruct (wsRef st) as [[[] ?]|]; simpl; eexists;
       (split; [rewrite <- ?app_assoc; simpl; try reflexivity; by rewrite ?app_nil_r|]);
       repeat constructor).
  - exists []. simpl.
    destruct (wsRef st) as [[[] ?]|]; simpl; eexists;
      (split; [rewrite <- ?app_assoc; simpl; try reflexivity; by rewrite ?app_nil_r|]);
      repeat constructor.
Qed.

Lemma teardown_page st :
  let st' := finalize_socket (disconnect_nodes st) in
  audioNodesRef st' = None
  ∧ (∀ ws, wsRef st' = Some ws → readyState ws = CLOSING ∨ readyState ws = CLOSED)
  ∧ (soapNote st', recommendations st', loading st')
    = (soapNote st, recommendations st, loading st).
Proof.
  unfold finalize_socket, disconnect_nodes.
  destruct (audioNodesRef st) as [[[] []]|] eqn:Hnodes; simpl;
    destruct (wsRef st) as [[[] ?]|] eqn:Hws; simpl;
    rewrite ?Hws, ?Hnodes; (split; [done|]); (split; [|done]);
    intros ws' [= <-]; simpl; eauto.
Qed.

Lemma generation_effects render soap rec st :
  ∃ gen,
    effects (generateRecommendations render rec (generateSOAP render soap st))
    = effects st ++ gen
    ∧ Forall (λ e, is_socket_call e = false) gen
    ∧ (liveTranscriptHistory render = [] →
       Forall (λ e, is_generation_request e = false) gen
       ∧ page (generateRecommendations render rec (generateSOAP render soap st))
         = page st).
Proof.
  unfold generateRecommendations, generateSOAP, fullTranscript.
  destruct (session render) as [sess|].
  - destruct (liveTranscriptHistory render) as [|h hs] eqn:Hh.
    + simpl. eexists. split; [reflexivity|]. repeat constructor.
    + destruct (no_transcript _).
      * eexists. split; [reflexivity|]. split; [repeat constructor|done].
      * destruct soap, rec as [| |[l|]]; simpl; eexists;
          (split; [rewrite <- ?app_assoc; reflexivity|]);
          (split; [repeat constructor|done]).
  - exists []. rewrite app_nil_r. split; [done|]. split; [constructor|].
    intros _. split; [constructor|done].
Qed.

Lemma socket_calls_none l :
  Forall (λ e, is_socket_call e = false) l → socket_calls l = [].
Proof.
  intros Hl. apply filter_none. intros e He.
  rewrite Forall_forall in Hl. rewrite (Hl e He). done.
Qed.

Lemma socket_calls_all l :
  Forall (λ e, is_socket_call e = true) l → socket_calls l = l.
Proof.
  unfold socket_calls. induction 1 as [|e l He Hl IH]; [done|].
  rewrite filter_cons, decide_True by done. by rewrite IH.
Qed.

(** What the teardown of [stopRecording] does, call by call. *)
Lemma teardown_exact st :
  let st' := finalize_socket (disconnect_nodes st) in
  effects st'
  = effects st
    ++ match audioNodesRef st with
       | Some nodes =>
           (if source nodes then [SourceDisconnect] else [])
           ++ (if processor nodes then [ProcessorDisconnect] else [])
       | None => []
       end
    ++ match wsRef st with
       | Some {| readyState := OPEN |} =>
           [WsSend "END_OF_STREAM"; WsClose 1000 "Client stopped"]
       | Some {| readyState := CONNECTING |} => [WsClose 1000 "Client stopped"]
       | _ => []
       end
  ∧ wsRef st'
    = match wsRef st with
      | Some {| readyState := (OPEN | CONNECTING); ws_session := s |} =>
          Some {| readyState := CLOSING; ws_session := s |}
      | found => found
      end
  ∧ audioNodesRef st' = None
  ∧ (session st', diseases st', liveTranscript st', liveTranscriptHistory st',
     loading st', soapNote st', recommendations st')
    = (session st, diseases st, liveTranscript st, liveTranscriptHistory st,
       loading st, soapNote st, recommendations st)
  ∧ scheduler st' = scheduler st.
Proof.
  unfold finalize_socket, disconnect_nodes, scheduler.
  destruct (audioNodesRef st) as [[[] []]|] eqn:Hnodes; simpl;
    destruct (wsRef st) as [[[] s]|] eqn:Hws; simpl;
    rewrite ?Hws, ?Hnodes, <- ?app_assoc, ?app_nil_r; done.
Qed.

(** With an empty history both generators return before their request. *)
Lemma generation_without_transcript render soap rec st :
  liveTranscriptHistory render = [] →
  generateRecommendations render rec (generateSOAP render soap st)
  = match session render with
    | Some _ =>
        emit (Alert "No transcript available. Please record some conversation first.") st
    | None => st
    end.
Proof.
  intros Hh. unfold generateRecommendations, generateSOAP, fullTranscript.
  rewrite Hh. by destruct (session render).
Qed.

End Stop.

(** C8: stopped with an empty history, the page clears its recording,
    connection and live flags; it disconnects the audio nodes it holds and
    drops them; it sends END_OF_STREAM on an open socket and closes an open
    or connecting socket with code 1000, which leaves the socket closing or
    closed; and it sends nothing to the SOAP generator nor to the
    recommendation generator: past the calls of the teardown, the only thing
    it does is the alert of [generateSOAP], when there is a session. The
    session, the detections, the transcript, the note, the recommendations
    and the scheduler stay as they were. *)
Theorem stop_with_empty_history (soap : SoapResponse)
    (rec : RecommendationsResponse) (st : AppState) :
  liveTranscriptHistory st = [] →
  let st' := stopRecording soap rec st in
  let added :=
    match audioNodesRef st with
    | Some nodes =>
        (if source nodes then [SourceDisconnect] else [])
        ++ (if processor nodes then [ProcessorDisconnect] else [])
    | None => []
    end
    ++ match wsRef st with
       | Some {| readyState := OPEN |} =>
           [WsSend "END_OF_STREAM"; WsClose 1000 "Client stopped"]
       | Some {| readyState := CONNECTING |} => [WsClose 1000 "Client stopped"]
       | _ => []
       end
    ++ match session st with
       | Some _ =>
           [Alert "No transcript available. Please record some conversation first."]
       | None => []
       end in
  isRecording st' = false ∧ isConnected st' = false ∧ isLiveTranscribing st' = false
  ∧ audioNodesRef st' = None
  ∧ wsRef st'
    = match wsRef st with
      | Some {| readyState := (OPEN | CONNECTING); ws_session := s |} =>
          Some {| readyState := CLOSING; ws_session := s |}
      | found => found
      end
  ∧ (∀ ws, wsRef st' = Some ws → readyState ws = CLOSING ∨ readyState ws = CLOSED)
  ∧ effects st' = effects st ++ added
  ∧ Forall (λ e, is_generation_request e = false) added
  ∧ soapNote st' = soapNote st ∧ recommendations st' = recommendations st
  ∧ (session st', diseases st', liveTranscript st', liveTranscriptHistory st',
     loading st') = (session st, diseases st, liveTranscript st, [], loading st)
  ∧ scheduler st' = scheduler st.
Proof.
  intros Hh st' added.
  destruct (teardown_exact st) as (Heff & Hws & Hnodes & Hpage & Hsched).
  set (down := finalize_socket (disconnect_nodes st)) in *.
  set (off := setIsLiveTranscribing false
                (setIsConnected false (setIsRecording false down))).
  assert (st' = match session st with
                | Some _ =>
                    emit (Alert "No transcript available. Please record some conversation first.") off
                | None => off
                end) as ->.
  { subst st'. unfold stopRecording. fold down. fold off.
    rewrite generation_without_transcript by done. by destruct (session st). }
  injection Hpage as Hsess Hdis Hlive Hhist Hload Hsoap Hrec.
  unfold scheduler in *. injection Hsched as Ht Href Hnext Hlast.
  assert (Forall (λ e, is_generation_request e = false) added) as Hadded.
  { subst added. repeat apply Forall_app_2.
    - destruct (audioNodesRef st) as [[[] []]|]; repeat constructor.
    - destruct (wsRef st) as [[[] ?]|]; repeat constructor.
    - destruct (session st); repeat constructor. }
  assert (∀ ws, wsRef down = Some ws
                → readyState ws = CLOSING ∨ readyState ws = CLOSED) as Hclosing.
  { rewrite Hws. destruct (wsRef st) as [[[] ?]|]; intros ws0 [= <-]; simpl; eauto. }
  subst added.
  destruct (session st) as [sess|] eqn:Hs; subst off; simpl;
    rewrite Heff, Hnodes, Hdis, Hlive, Hhist, Hload, Hsoap, Hrec, Ht, Href,
      Hnext, Hlast, ?Hsess, ?Hs, ?Hh, <- ?app_assoc, ?app_nil_r;
    repeat (split; [done || by rewrite app_nil_r in Hadded|]); done.
Qed.

Lemma stop_with_empty_history_witness :
  effects (stopRecording SoapFailed RecommendationsFailed Sample.recording)
  = [SourceDisconnect; ProcessorDisconnect; WsSend "END_OF_STREAM";
     WsClose 1000 "Client stopped";
     Alert "No transcript available. Please record some conversation first."].
Proof.
  pose proof (stop_with_empty_history SoapFailed RecommendationsFailed
                Sample.recording eq_refl) as H.
  cbv zeta in H. destruct H as (_ & _ & _ & _ & _ & _ & Heff & _).
  rewrite Heff. reflexivity.
Defined.

(** C9: when [stopRecording] finds the socket open, the calls it makes on
    the socket are the sentinel END_OF_STREAM and then the close, with code
    1000; a socket found closing or closed gets no call at all. (A socket
    still connecting is closed with the same code, without the sentinel.) *)
Theorem socket_finalized (soap : SoapResponse) (rec : RecommendationsResponse)
    (st : AppState) (ws : WebSocket) :
  wsRef st = Some ws →
  socket_calls (effects (stopRecording soap rec st))
  = socket_calls (effects st)
    ++ match readyState ws with
       | OPEN => [WsSend "END_OF_STREAM"; WsClose 1000 "Client stopped"]
       | CONNECTING => [WsClose 1000 "Client stopped"]
       | CLOSING | CLOSED => []
       end.
Proof.
  intros Hws. unfold stopRecording.
  destruct (teardown_effects st) as (nodes & sock & Heff & Hnodes & _ & Hsock).
  rewrite Hws in Hsock.
  assert (socket_calls (effects (finalize_socket (disconnect_nodes st)))
          = socket_calls (effects st)
            ++ match readyState ws with
               | OPEN => [WsSend "END_OF_STREAM"; WsClose 1000 "Client stopped"]
               | CONNECTING => [WsClose 1000 "Client stopped"]
               | CLOSING | CLOSED => []
               end) as Hdown.
  { rewrite Heff. unfold socket_calls. rewrite !filter_app. f_equal.
    fold (socket_calls nodes) (socket_calls sock).
    rewrite socket_calls_none by (eapply Forall_impl; [exact Hnodes|]; by intros e [? _]).
    rewrite socket_calls_all; [by destruct ws as [[] ?]; subst sock|].
    destruct ws as [[] ?]; subst sock; repeat constructor. }
  destruct (session st); [|exact Hdown].
  match goal with
  | |- context [generateRecommendations st rec (generateSOAP st soap ?off)] =>
      destruct (generation_effects st soap rec off) as (gen & -> & Hgen & _)
  end.
  unfold socket_calls at 1. rewrite filter_app. fold (socket_calls gen).
  rewrite (socket_calls_none gen Hgen), app_nil_r. exact Hdown.
Qed.

Lemma socket_finalized_witness :
  socket_calls
    (effects (stopRecording SoapFailed RecommendationsFailed Sample.recording))
  = socket_calls (effects Sample.recording)
    ++ [WsSend "END_OF_STREAM"; WsClose 1000 "Client stopped"].
Proof.
  exact (socket_finalized SoapFailed RecommendationsFailed Sample.recording
           {| readyState := OPEN; ws_session := Sample.session1 |} eq_refl).
Defined.

Lemma last_analyzed_text_frame_witness :
  let st := run initial Sample.armed_events in
  ∃ tm, timers st = [tm] ∧ timer_id tm = 1%positive
        ∧ lastDetectedTextRef (step st (TimerFired 1)) = timer_text tm
        ∧ too_similar (calculateSimilarity (lastDetectedTextRef st)
                         (timer_text tm)) = false.
Proof.
  apply (proj1 (proj2 (proj2 last_analyzed_text_frame)) Sample.armed_events 1%positive).
  vm_compute. discriminate.
Defined.

(** ** The scenarios of the specification, run *)

(** Four words arm nothing; the longer text arms the timer; when it fires
    the analysis is requested on exactly that text. *)
Example interim_scenario :
  timers (run initial (take 4 Sample.armed_events)) = []
  ∧ timers (run initial Sample.armed_events)
    = [debounce_timer 1 (Some Sample.session1) Sample.scenario_text]
  ∧ effects (run initial (Sample.armed_events ++ [TimerFired 1%positive]))
    = [SetTimeout 1 1500; PostAnalyze "S-1" Sample.scenario_text]
  ∧ lastDetectedTextRef (run initial (Sample.armed_events ++ [TimerFired 1%positive]))
    = Sample.scenario_text.
Proof. repeat split; by vm_compute. Qed.

(** A final text is analyzed although it is the very text last analyzed. *)
Example final_bypasses_gate :
  let st := run initial (Sample.armed_events ++ [TimerFired 1%positive]) in
  too_similar (calculateSimilarity (lastDetectedTextRef st) Sample.scenario_text) = true
  ∧ effects (step st (WsMessage (Sample.transcript Sample.scenario_text None true)))
    = effects st ++ [PostAnalyze "S-1" Sample.scenario_text].
Proof. split; by vm_compute. Qed.

(** The same text again, as an interim one, is dropped by the gate. *)
Example repeated_interim_dropped :
  let st := run initial (Sample.armed_events ++ [TimerFired 1%positive]) in
  step st (WsMessage (Sample.transcript Sample.scenario_text None false))
  = emit (ClearTimeout 1) (setLiveTranscript Sample.scenario_text st).
Proof. by vm_compute. Qed.

(** Stopping with an empty history, the socket open and a session. *)
Example stop_scenario :
  effects (stopRecording SoapFailed RecommendationsFailed Sample.recording)
  = [SourceDisconnect; ProcessorDisconnect; WsSend "END_OF_STREAM";
     WsClose 1000 "Client stopped";
     Alert "No transcript available. Please record some conversation first."].
Proof. by vm_compute. Qed.

(** * Further properties of the component *)

(** ** The similarity score *)

Section Score.

Lemma jaccard_bounds (A B : wordset) :
  (0 < size (A ∪ B))%nat → (0 <= jaccard A B)%Q ∧ (jaccard A B <= 1)%Q.
Proof.
  intros Hu. unfold jaccard, Qle. cbn [Qnum Qden].
  assert (size (A ∩ B) ≤ size (A ∪ B))%nat as Hle.
  { apply subseteq_size. intros x [Hx _]%elem_of_intersection.
    apply elem_of_union. by left. }
  destruct (size (A ∪ B)) as [|n]; [lia|].
  rewrite <- Pos.of_nat_succ, Zpos_P_of_succ_nat. lia.
Qed.

Lemma jaccard_one (A B : wordset) :
  (0 < size (A ∪ B))%nat → (jaccard A B == 1)%Q ↔ A = B.
Proof.
  intros Hu. unfold jaccard, Qeq. cbn [Qnum Qden]. split.
  - intros Heq.
    assert (size (A ∪ B) ≤ size (A ∩ B))%nat as Hle.
    { destruct (size (A ∪ B)) as [|n]; [lia|].
      rewrite <- Pos.of_nat_succ, Zpos_P_of_succ_nat in Heq. lia. }
    assert (A ∩ B = A ∪ B) as Hsame.
    { apply set_subseteq_size_eq; [|done]. intros x [Hx _]%elem_of_intersection.
      apply elem_of_union. by left. }
    apply set_eq. intros x. split; intros Hx.
    + assert (x ∈ A ∩ B) as [_ Hin]%elem_of_intersection; [|done].
      rewrite Hsame. apply elem_of_union. by left.
    + assert (x ∈ A ∩ B) as [Hin _]%elem_of_intersection; [|done].
      rewrite Hsame. apply elem_of_union. by right.
  - intros <-. rewrite (idemp_L (∩) A), (idemp_L (∪) A) in *.
    destruct (size A) as [|n]; [lia|].
    rewrite <- Pos.of_nat_succ, Zpos_P_of_succ_nat. lia.
Qed.

End Score.

(** X1: the score is a fraction between 0 and 1, whatever the two texts. *)
Theorem similarity_between_0_and_1 (a b : string) :
  (0 <= calculateSimilarity a b)%Q ∧ (calculateSimilarity a b <= 1)%Q.
Proof.
  destruct (truthy a) eqn:Ha, (truthy b) eqn:Hb;
    try (unfold calculateSimilarity; rewrite Ha, Hb; by simpl).
  rewrite calculateSimilarity_jaccard by done.
  apply jaccard_bounds, union_size_l, words_of_size.
Qed.

(** X2: two non-empty texts score 1 exactly when they have the same set of
    lower-cased pieces: order, repetition and letter case do not count, any
    other difference does. *)
Theorem similarity_1_iff_same_words (a b : string) :
  truthy a = true → truthy b = true →
  (calculateSimilarity a b == 1)%Q ↔ words_of a = words_of b.
Proof.
  intros Ha Hb. rewrite calculateSimilarity_jaccard by done.
  apply jaccard_one, union_size_l, words_of_size.
Qed.

Lemma similarity_1_iff_same_words_witness :
  (calculateSimilarity "Chest pain chest" "pain CHEST" == 1)%Q
  ↔ words_of "Chest pain chest" = words_of "pain CHEST".
Proof.
  apply (similarity_1_iff_same_words "Chest pain chest" "pain CHEST");
    reflexivity.
Defined.

(** ** The detections over a run *)

Section Detections.

Lemma merge_nil_r S : merge S [] = S.
Proof. rewrite merge_unfold, filter_nil. apply app_nil_r. Qed.

Lemma generation_diseases render soap rec st :
  diseases (generateRecommendations render rec (generateSOAP render soap st))
  = diseases st.
Proof.
  unfold generateRecommendations, generateSOAP.
  destruct (session render); [|done].
  destruct (no_transcript _); [done|].
  by destruct soap, rec as [| |[l|]].
Qed.

Lemma step_diseases st e :
  diseases (step st e) = merge (diseases st) (detections_of e).
Proof.
  destruct e as [r|mic| |m|code| |id|r|soap rec]; simpl; rewrite ?merge_nil_r.
  - by destruct r.
  - unfold startRecording. destruct (session st); [destruct mic|]; done.
  - unfold with_readyState. by destruct (wsRef st) as [[[] ?]|].
  - destruct (wsRef st) as [ws|]; [|done]. unfold onmessage.
    generalize (onmessage_calls m). intros cs. revert st.
    induction cs as [|c cs IH]; intros st; [done|]. simpl. rewrite IH.
    destruct c as [msg|ft|v|t|t]; try done.
    pose proof (debounced_page (Some (ws_session ws)) t st) as H.
    unfold page in H. simpl. congruence.
  - unfold with_readyState. by destruct (wsRef st).
  - by destruct (wsRef st).
  - unfold fire_timer. destruct (filter _ (timers st)) as [|tm l]; [done|].
    unfold debounce_callback. by destruct (timer_session tm).
  - destruct r as [| |[[|d ds]|]]; simpl; by rewrite ?merge_nil_r.
  - unfold stopRecording.
    assert (diseases (finalize_socket (disconnect_nodes st)) = diseases st) as Hd.
    { unfold finalize_socket, disconnect_nodes.
      destruct (audioNodesRef st) as [[[] []]|]; simpl;
        destruct (wsRef st) as [[[] ?]|]; done. }
    destruct (session st); [rewrite generation_diseases|]; exact Hd.
Qed.

Lemma run_diseases es : ∀ st,
  diseases (run st es) = foldl merge (diseases st) (detections_of <$> es).
Proof.
  induction es as [|e es IH]; intros st; [done|].
  simpl. by rewrite IH, step_diseases.
Qed.

End Detections.

(** X3: the merge never loses a name and never invents one: the names stored
    afterwards are those stored before together with those that came in. *)
Theorem merge_stores_every_name (S L : list DiseaseHighlight) :
  list_to_set (disease_name <$> merge S L)
  =@{gset (option string)}
    list_to_set (disease_name <$> S) ∪ list_to_set (disease_name <$> L).
Proof.
  rewrite merge_unfold, fmap_app, list_to_set_app_L. apply set_eq. intros n.
  rewrite !elem_of_union, !elem_of_list_to_set. split; [|intros [Hn|Hn]].
  - intros [Hn|[d [-> Hd]]%list_elem_of_fmap]; [by left|].
    apply list_elem_of_filter in Hd as [_ Hd]. right. by apply list_elem_of_fmap_2.
  - by left.
  - destruct (decide (n ∈ disease_name <$> S)) as [|Hnew]; [by left|]. right.
    apply list_elem_of_fmap in Hn as [d [-> Hd]].
    apply list_elem_of_fmap_2. by apply list_elem_of_filter.
Qed.


(** X4: over any run the list of detections is the merge, one after the other,
    of the lists that the successful analysis responses brought: no other
    event, stopping included, touches it, and a failed analysis leaves it as
    it is. *)
Theorem detections_over_run (es : list Event) (st : AppState) :
  diseases (run st es) = foldl merge (diseases st) (detections_of <$> es).
Proof. apply run_diseases. Qed.

(** X5: detections are never removed nor reordered: what a page shows stays in
    front of whatever a run adds. *)
Theorem detections_only_grow (es : list Event) (st : AppState) :
  ∃ added, diseases (run st es) = diseases st ++ added.
Proof.
  rewrite run_diseases. generalize (detections_of <$> es) (diseases st).
  intros Ls. induction Ls as [|L Ls IH]; intros S; simpl.
  - exists []. by rewrite app_nil_r.
  - destruct (IH (merge S L)) as [added ->]. destruct (merge_prefix S L) as [a ->].
    exists (a ++ added). by rewrite app_assoc.
Qed.

(** X6: on a page run from its start, the names of the detections are pairwise
    distinct as long as no single response names a disease twice. *)
Theorem detections_distinct_over_run (es : list Event) :
  Forall (λ e, distinct_names (detections_of e)) es →
  distinct_names (diseases (run initial es)).
Proof.
  rewrite run_diseases. change (diseases initial) with (@nil DiseaseHighlight).
  assert (distinct_names []) as Hnil by constructor. revert Hnil.
  generalize (@nil DiseaseHighlight). intros S HS Hes. revert S HS.
  induction Hes as [|e es He Hes IH]; intros S HS; [done|].
  simpl. apply IH. by apply merge_distinct_names.
Qed.

Lemma detections_distinct_over_run_witness :
  distinct_names
    (diseases (run initial
       [AnalyzeResponded (AnalyzeOk (Some [Sample.pneumonia (9 # 10)]));
        AnalyzeResponded AnalyzeFailed;
        AnalyzeResponded (AnalyzeOk (Some [Sample.pneumonia (6 # 10)]))])).
Proof.
  apply detections_distinct_over_run.
  constructor; [apply NoDup_singleton|].
  constructor; [apply NoDup_nil_2|].
  constructor; [apply NoDup_singleton|]. constructor.
Defined.

(** ** The pending timer *)

Section Pending.

(** What every timer of the scheduler looks like. *)
Let armed_here (tm : Timer) : Prop :=
  timer_ms tm = 1500%nat ∧ is_Some (timer_session tm).

Lemma run_call_armed_here s st c :
  single_slot st → Forall armed_here (timers st) →
  Forall armed_here (timers (run_call (Some s) st c)).
Proof.
  intros Hslot Harmed. destruct c as [msg|ft|v|t|t]; try done.
  unfold run_call.
  destruct ((String.length t <? 10)%nat
            || too_similar (calculateSimilarity (lastDetectedTextRef st) t)) eqn:Hd.
  - rewrite (debounced_dropped (Some s) t st Hd), cancel_pending_timers by done.
    constructor.
  - destruct (debounced_armed (Some s) t st Hslot Hd) as (-> & _).
    repeat constructor. by eexists.
Qed.

Lemma step_armed_here st e :
  single_slot st → Forall armed_here (timers st) →
  Forall armed_here (timers (step st e)).
Proof.
  intros Hslot Harmed. destruct (quiet e) eqn:Hq.
  { pose proof (quiet_step st e Hq) as H. unfold scheduler in H.
    injection H as -> _ _ _. done. }
  destruct e; try done; simpl.
  - destruct (wsRef st) as [ws|]; [|done]. unfold onmessage.
    generalize (onmessage_calls m). intros cs. revert st Hslot Harmed.
    induction cs as [|c cs IH]; intros st Hslot Harmed; [done|].
    simpl. apply IH; [by apply run_call_single_slot|by apply run_call_armed_here].
  - unfold fire_timer. destruct (filter _ (timers st)) as [|tm l] eqn:Hf; [done|].
    assert (Forall armed_here (filter (λ tm, timer_id tm ≠ id) (timers st))) as H.
    { apply Forall_forall. intros x [_ Hx]%list_elem_of_filter.
      rewrite Forall_forall in Harmed. by apply Harmed. }
    unfold debounce_callback. by destruct (timer_session tm).
Qed.

Lemma reachable_armed_here es : Forall armed_here (timers (run initial es)).
Proof.
  assert (∀ st, single_slot st → Forall armed_here (timers st) →
            Forall armed_here (timers (run st es))) as H.
  { induction es as [|e es IH]; intros st Hslot Harmed; [done|].
    simpl. apply IH; [by apply step_single_slot|by apply step_armed_here]. }
  apply H; [exact I|constructor].
Qed.

End Pending.

(** X7: on a page run from its start there is never more than one timer pending;
    the one that is pending is the one the ref holds, waits 1500 ms, has a
    session to call with, and holds a text of at least 10 code units that
    the gate lets through against the text last analyzed. *)
Theorem at_most_one_timer_pending (es : list Event) :
  let st := run initial es in
  (length (timers st) ≤ 1)%nat
  ∧ ∀ tm, tm ∈ timers st →
      diseaseDetectionTimerRef st = Some (timer_id tm)
      ∧ timer_ms tm = 1500%nat
      ∧ is_Some (timer_session tm)
      ∧ (10 ≤ String.length (timer_text tm))%nat
      ∧ too_similar (calculateSimilarity (lastDetectedTextRef st) (timer_text tm))
        = false.
Proof.
  intros st. destruct (reachable_invariants es) as [Hslot Happ].
  pose proof (reachable_armed_here es) as Harmed. fold st in Hslot, Happ, Harmed.
  unfold single_slot in Hslot. rewrite Forall_forall in Harmed.
  split; [destruct (timers st) as [|tm [|tm' l]]; simpl; done || lia|].
  intros tm Htm. destruct (Harmed tm Htm) as [Hms Hsess].
  destruct (Happ tm Htm) as [Hlen Hgate]. repeat split; try done.
  destruct (timers st) as [|tm0 [|tm' l]]; [by apply not_elem_of_nil in Htm| |done].
  apply list_elem_of_singleton in Htm as ->. by destruct Hslot.
Qed.

Lemma at_most_one_timer_pending_witness :
  let st := run initial Sample.armed_events in
  let tm := debounce_timer 1 (Some Sample.session1) Sample.scenario_text in
  tm ∈ timers st ∧ diseaseDetectionTimerRef st = Some (timer_id tm).
Proof.
  intros st tm.
  assert (tm ∈ timers st) as Htm by (vm_compute; left).
  split; [exact Htm|].
  exact (proj1 (proj2 (at_most_one_timer_pending Sample.armed_events) tm Htm)).
Defined.

(** X8: a request that a newer request replaces never reaches the analysis
    service: once the second request is made, the timer of the first no
    longer exists, and the only text that can be pending is the second. *)
Theorem newer_request_replaces_pending (s : Session) (t1 t2 : string)
    (es : list Event) :
  let st := run initial es in
  let st1 := detectDiseasesDebounced (Some s) t1 st in
  let st2 := detectDiseasesDebounced (Some s) t2 st1 in
  timers st1 = [debounce_timer (nextTimerId st) (Some s) t1] →
  step st2 (TimerFired (nextTimerId st)) = st2
  ∧ ∀ tm, tm ∈ timers st2 → timer_text tm = t2 ∧ timer_id tm ≠ nextTimerId st.
Proof.
  intros st st1 st2 Harmed1.
  assert (single_slot st1) as Hslot1
    by (apply debounced_single_slot, reachable_invariants).
  assert (nextTimerId st1 = Pos.succ (nextTimerId st)) as Hnext.
  { destruct ((String.length t1 <? 10)%nat
              || too_similar (calculateSimilarity (lastDetectedTextRef st) t1)) eqn:Hd.
    - pose proof (debounced_dropped (Some s) t1 st Hd) as Hdrop. fold st1 in Hdrop.
      rewrite Hdrop, cancel_pending_timers in Harmed1; [done|].
      apply reachable_invariants.
    - destruct (debounced_armed (Some s) t1 st (proj1 (reachable_invariants es)) Hd)
        as (_ & _ & Hn & _). exact Hn. }
  assert (∀ tm, tm ∈ timers st2 → timer_text tm = t2 ∧ timer_id tm ≠ nextTimerId st)
    as Honly.
  { intros tm.
    destruct ((String.length t2 <? 10)%nat
              || too_similar (calculateSimilarity (lastDetectedTextRef st1) t2)) eqn:Hd.
    - subst st2. rewrite (debounced_dropped (Some s) t2 st1 Hd),
        cancel_pending_timers by done. by intros ?%not_elem_of_nil.
    - destruct (debounced_armed (Some s) t2 st1 Hslot1 Hd) as (Htm & _).
      fold st2 in Htm. rewrite Htm. intros ->%list_elem_of_singleton. simpl.
      split; [done|]. rewrite Hnext. lia. }
  split; [|done]. simpl. unfold fire_timer.
  rewrite filter_none; [done|]. intros tm Htm Hid. by destruct (Honly tm Htm).
Qed.

Lemma newer_request_replaces_pending_witness :
  let st := run initial Sample.armed_events in
  let st1 := detectDiseasesDebounced (Some Sample.session1) Sample.other_words st in
  let st2 := detectDiseasesDebounced (Some Sample.session1) Sample.scenario_text st1 in
  timers st1 = [debounce_timer (nextTimerId st) (Some Sample.session1) Sample.other_words]
  ∧ step st2 (TimerFired (nextTimerId st)) = st2.
Proof.
  intros st st1 st2.
  assert (timers st1
          = [debounce_timer (nextTimerId st) (Some Sample.session1) Sample.other_words])
    as Harmed by (vm_compute; reflexivity).
  split; [exact Harmed|].
  exact (proj1 (newer_request_replaces_pending Sample.session1 Sample.other_words
                  Sample.scenario_text Sample.armed_events Harmed)).
Defined.

(** X9: stopping does not cancel the pending timer: the scheduler is left as it
    is, and the timer still fires afterwards, recording its text and issuing
    the analysis call. *)
Theorem stop_leaves_timer_pending (soap : SoapResponse)
    (rec : RecommendationsResponse) (st : AppState) (tm : Timer) :
  timers st = [tm] →
  let stopped := stopRecording soap rec st in
  let fired := step stopped (TimerFired (timer_id tm)) in
  scheduler stopped = scheduler st
  ∧ lastDetectedTextRef fired = timer_text tm
  ∧ timers fired = []
  ∧ effects fired
    = effects stopped
      ++ match timer_session tm with
         | Some s => [PostAnalyze (session_id s) (timer_text tm)]
         | None => []
         end.
Proof.
  intros Htm stopped fired.
  pose proof (stopRecording_scheduler soap rec st) as Hsched. fold stopped in Hsched.
  split; [done|]. unfold scheduler in Hsched. injection Hsched as Ht _ _ _.
  subst fired. simpl. unfold fire_timer. rewrite Ht, Htm, !filter_cons, !filter_nil.
  destruct (decide (timer_id tm = timer_id tm)); [|done].
  destruct (decide (timer_id tm ≠ timer_id tm)); [done|].
  unfold debounce_callback. destruct (timer_session tm); simpl;
    by rewrite ?app_nil_r.
Qed.

Lemma stop_leaves_timer_pending_witness :
  let st := run initial Sample.armed_events in
  let tm := debounce_timer 1 (Some Sample.session1) Sample.scenario_text in
  timers st = [tm]
  ∧ lastDetectedTextRef
      (step (stopRecording SoapFailed RecommendationsFailed st)
         (TimerFired (timer_id tm)))
    = timer_text tm.
Proof.
  intros st tm.
  assert (timers st = [tm]) as Htm by (vm_compute; reflexivity).
  split; [exact Htm|].
  exact (proj1 (proj2 (stop_leaves_timer_pending SoapFailed RecommendationsFailed
                         st tm Htm))).
Defined.

(** ** What stopping sends to the generators *)

Section Generators.

Lemma generation_requests_app l k :
  generation_requests (l ++ k) = generation_requests l ++ generation_requests k.
Proof. apply filter_app. Qed.

Lemma generation_requests_none l :
  Forall (λ e, is_generation_request e = false) l → generation_requests l = [].
Proof.
  intros Hl. apply filter_none. intros e He.
  rewrite Forall_forall in Hl. by rewrite (Hl e He).
Qed.

Lemma generation_requests_sent (s : Session) render soap rec st :
  session render = Some s →
  no_transcript (fullTranscript render) = false →
  let st' := generateRecommendations render rec (generateSOAP render soap st) in
  generation_requests (effects st')
  = generation_requests (effects st)
    ++ [PostSoapGenerate (session_id s) (fullTranscript render)
          (detected_disease <$> diseases render) "general";
        PostRecommendations (session_id s) (fullTranscript render)
          (detected_disease <$> diseases render) (soapNote render)]
  ∧ loading st' = false.
Proof.
  intros Hs Ht. unfold generateRecommendations, generateSOAP.
  rewrite Hs, Ht. unfold generation_requests.
  destruct soap, rec as [| |[l|]]; simpl;
    rewrite ?filter_app, ?filter_cons, ?filter_nil; simpl;
    rewrite ?app_nil_r, <- ?app_assoc; done.
Qed.

End Generators.

(** X10: stopped with a session and a transcript that is not blank, the page
    sends one request to the SOAP generator and then one to the
    recommendation generator, whatever either of them answers; both carry the
    joined history and the detections of the page as it was when stopped, and
    the second carries the note the page had then, not the note just
    generated. Loading is off at the end. *)
Theorem stop_requests_note_then_recommendations (s : Session)
    (soap : SoapResponse) (rec : RecommendationsResponse) (st : AppState) :
  session st = Some s →
  no_transcript (fullTranscript st) = false →
  let st' := stopRecording soap rec st in
  generation_requests (effects st')
  = generation_requests (effects st)
    ++ [PostSoapGenerate (session_id s) (fullTranscript st)
          (detected_disease <$> diseases st) "general";
        PostRecommendations (session_id s) (fullTranscript st)
          (detected_disease <$> diseases st) (soapNote st)]
  ∧ loading st' = false.
Proof.
  intros Hs Ht st'. subst st'. unfold stopRecording. rewrite Hs.
  destruct (teardown_effects st) as (nodes & sock & Heff & Hnodes & Hsock & _).
  match goal with
  | |- context [generateRecommendations st rec (generateSOAP st soap ?off)] =>
      destruct (generation_requests_sent s st soap rec off Hs Ht) as [-> ->]
  end.
  split; [|done]. f_equal. simpl. rewrite Heff, !generation_requests_app.
  assert (Forall (λ e, is_generation_request e = false) nodes) as Hnodes'
    by (eapply Forall_impl; [exact Hnodes|]; by intros e [_ ?]).
  by rewrite (generation_requests_none sock Hsock),
    (generation_requests_none nodes Hnodes'), !app_nil_r.
Qed.

Lemma stop_requests_note_then_recommendations_witness :
  let st := step Sample.recording (WsMessage Sample.two_speakers) in
  loading (stopRecording (SoapHttpError "Bad Gateway") RecommendationsFailed st)
  = false.
Proof.
  intros st.
  refine (proj2 (stop_requests_note_then_recommendations Sample.session1
                   (SoapHttpError "Bad Gateway") RecommendationsFailed st _ _));
    reflexivity.
Defined.

(** ** The sessions a page makes requests under *)

Section Sessions.

Implicit Types (K : list Session) (st : AppState).











Lemma teardown_frame st :
  let down := finalize_socket (disconnect_nodes st) in
  session down = session st
  ∧ timers down = timers st
  ∧ ws_session <$> wsRef down = ws_session <$> wsRef st.
Proof.
  unfold finalize_socket, disconnect_nodes.
  destruct (audioNodesRef st) as [[[] []]|]; simpl;
    destruct (wsRef st) as [[[] ?]|] eqn:Hws; simpl; by rewrite ?Hws.
Qed.




End Sessions.



(** ** What a message can and cannot do *)

Section Messages.

Lemma run_call_page_frame cap st c :
  (session (run_call cap st c), diseases (run_call cap st c),
   (isConnected (run_call cap st c), isLiveTranscribing (run_call cap st c),
    isRecording (run_call cap st c), loading (run_call cap st c)),
   (soapNote (run_call cap st c), recommendations (run_call cap st c),
    wsRef (run_call cap st c), audioNodesRef (run_call cap st c)))
  = (session st, diseases st,
     (isConnected st, isLiveTranscribing st, isRecording st, loading st),
     (soapNote st, recommendations st, wsRef st, audioNodesRef st)).
Proof.
  destruct c as [msg|ft|v|t|t]; try done.
  - by destruct cap.
  - pose proof (debounced_page cap t st) as H. unfold page in H. simpl.
    congruence.
Qed.

Lemma onmessage_page_frame cap m st :
  (session (onmessage cap m st), diseases (onmessage cap m st),
   (isConnected (onmessage cap m st), isLiveTranscribing (onmessage cap m st),
    isRecording (onmessage cap m st), loading (onmessage cap m st)),
   (soapNote (onmessage cap m st), recommendations (onmessage cap m st),
    wsRef (onmessage cap m st), audioNodesRef (onmessage cap m st)))
  = (session st, diseases st,
     (isConnected st, isLiveTranscribing st, isRecording st, loading st),
     (soapNote st, recommendations st, wsRef st, audioNodesRef st)).
Proof.
  unfold onmessage. generalize (onmessage_calls m). intros cs. revert st.
  induction cs as [|c cs IH]; intros st; [done|].
  simpl. rewrite IH. apply run_call_page_frame.
Qed.

Lemma appended_at_most_one m :
  (length (appended_by m) ≤ if is_final m then 1 else 0)%nat.
Proof.
  destruct (is_final m) eqn:Hfinal; [|by rewrite appended_interim].
  unfold appended_by, onmessage_calls, transcript_calls. rewrite Hfinal.
  destruct (error m) as [e|]; [destruct (truthy e); [simpl; lia|]|];
    (destruct (text m) as [raw|]; [|simpl; lia]; destruct (truthy raw); [|simpl; lia];
     destruct (formatText raw (words m)); simpl; lia).
Qed.

Lemma step_history_any st e :
  ∃ added,
    liveTranscriptHistory (step st e) = liveTranscriptHistory st ++ added
    ∧ (length added ≤ length (final_messages [e]))%nat.
Proof.
  destruct (wsRef st) as [ws|] eqn:Hws.
  - destruct (step_history st e) as [Hh _]; [by rewrite Hws|].
    eexists. split; [exact Hh|].
    destruct e as [| | |m| | | | |]; simpl; try lia.
    pose proof (appended_at_most_one m). by destruct (is_final m).
  - exists []. rewrite app_nil_r. split; [|simpl; lia].
    destruct e as [r|mic| |m|code| |id|r|soap rec]; simpl; rewrite ?Hws; try done.
    + by destruct r.
    + unfold startRecording. destruct (session st); [destruct mic|]; done.
    + unfold fire_timer. destruct (filter _ (timers st)) as [|tm l]; [done|].
      unfold debounce_callback. by destruct (timer_session tm).
    + by destruct r as [| |[[|d ds]|]].
    + unfold stopRecording.
      assert (liveTranscriptHistory (finalize_socket (disconnect_nodes st))
              = liveTranscriptHistory st) as Hh.
      { unfold finalize_socket, disconnect_nodes.
        destruct (audioNodesRef st) as [[[] []]|]; simpl; by rewrite ?Hws. }
      destruct (session st);
        [by destruct (generation_history st soap rec
           (setIsLiveTranscribing false (setIsConnected false (setIsRecording false
              (finalize_socket (disconnect_nodes st)))))) as [-> _]|done].
Qed.

Lemma not_all_false {A} (f : A → bool) (l : list A) :
  ¬ Forall (λ x, f x = false) l ↔ Exists (λ x, f x = true) l.
Proof.
  induction l as [|a l IH].
  - split; [intros H; destruct H; constructor|by intros H%Exists_nil].
  - rewrite Forall_cons, Exists_cons, <- IH. destruct (f a).
    + split; [by left|by intros _ [? _]].
    + split.
      * intros H. right. intros Hl. by apply H.
      * intros [?|Hn] [_ Hl]; [done|by apply Hn].
Qed.

End Messages.

(** X12: a message, whatever it carries, only ever touches the interim slot, the
    history, the scheduler and the list of effects: the session, the
    detections, the four flags, the note, the recommendations, the socket
    and the audio nodes are as before. An error from the server therefore
    does not stop the recording. *)
Theorem message_leaves_page_running (cap : option Session) (m : Message)
    (st : AppState) :
  let st' := onmessage cap m st in
  (session st', diseases st',
   (isConnected st', isLiveTranscribing st', isRecording st', loading st'),
   (soapNote st', recommendations st', wsRef st', audioNodesRef st'))
  = (session st, diseases st,
     (isConnected st, isLiveTranscribing st, isRecording st, loading st),
     (soapNote st, recommendations st, wsRef st, audioNodesRef st)).
Proof. apply onmessage_page_frame. Qed.

(** X13: the history only grows, and by at most one line per final message
    delivered: nothing removes or rewrites a line, stopping included. *)
Theorem history_only_grows (es : list Event) (st : AppState) :
  ∃ added,
    liveTranscriptHistory (run st es) = liveTranscriptHistory st ++ added
    ∧ (length added ≤ length (final_messages es))%nat.
Proof.
  revert st. induction es as [|e es IH]; intros st.
  - exists []. by rewrite app_nil_r.
  - destruct (step_history_any st e) as (a1 & Hh1 & Hl1).
    destruct (IH (step st e)) as (a2 & Hh2 & Hl2).
    exists (a1 ++ a2). change (run st (e :: es)) with (run (step st e) es).
    rewrite Hh2, Hh1, <- app_assoc. split; [done|].
    assert (length (final_messages (e :: es))
            = length (final_messages [e]) + length (final_messages es))%nat as ->.
    { unfold final_messages. change (e :: es) with ([e] ++ es).
      by rewrite omap_app, length_app. }
    rewrite length_app. lia.
Qed.

(** X14: a message that carries no error and a text that is not empty is lost
    without a trace exactly when one of its words is tagged with a name that
    every object inherits from [Object.prototype]. *)
Theorem message_lost_iff_inherited_tag (m : Message) :
  truthy_field (error m) = false → truthy_field (text m) = true →
  onmessage_calls m = []
  ↔ Exists (λ w, JsObject.inherited (speaker_of w) = true) (default [] (words m)).
Proof.
  intros Herr Htext.
  assert (onmessage_calls m = [] ↔ ¬ is_Some (formatText (default "" (text m)) (words m)))
    as ->.
  { unfold onmessage_calls, transcript_calls, truthy_field in *.
    destruct (text m) as [raw|]; [|done]. rewrite Htext. simpl.
    assert ((match formatText raw (words m) with
             | Some formattedText =>
                 if is_final m
                 then [CallAppendHistory formattedText; CallSetLiveTranscript "";
                       CallDetectDiseases formattedText]
                 else CallSetLiveTranscript formattedText
                      :: (if (5 <=? length (split_space raw))%nat
                          then [CallDetectDiseasesDebounced raw] else [])
             | None => []
             end = []) ↔ ¬ is_Some (formatText raw (words m))) as Hcalls.
    { destruct (formatText raw (words m)) as [ft|].
      - split; [by destruct (is_final m)|]. intros Hno. destruct Hno. eauto.
      - split; [by intros _ [? ?]|done]. }
    destruct (error m) as [e|]; [by rewrite Herr|done]. }
  rewrite formatText_is_Some. apply not_all_false.
Qed.

Lemma message_lost_iff_inherited_tag_witness :
  onmessage_calls Sample.inherited_tag = []
  ↔ Exists (λ w, JsObject.inherited (speaker_of w) = true)
      (default [] (words Sample.inherited_tag)).
Proof.
  apply (message_lost_iff_inherited_tag Sample.inherited_tag); reflexivity.
Defined.

(** ** Grouping and counting *)

Section Grouping.

Import JsObject.

Implicit Types (o : list (string * list string)) (k : string).

Lemma set_append o k x :
  concat (snd <$> set o k (default [] (own o k) ++ [x]))
  ≡ₚ concat (snd <$> o) ++ [x].
Proof.
  induction o as [|[k' v'] o IH]; [done|]. cbn [set own].
  destruct (String.eqb_spec k' k) as [->|Hk].
  - rewrite !fmap_cons. cbn [snd concat default]. by rewrite <- app_assoc, (comm (++) [x]), app_assoc.
  - rewrite !fmap_cons. cbn [snd concat]. by rewrite IH, app_assoc.
Qed.

Lemma group_word_set o w o1 :
  group_word o w = Some o1 →
  o1 = set o (speaker_of w) (default [] (own o (speaker_of w)) ++ [word w]).
Proof.
  unfold group_word. destruct (own o (speaker_of w)); [by intros [= <-]|].
  destruct (inherited (speaker_of w)); [done|by intros [= <-]].
Qed.

Lemma group_words_keep ws : ∀ o o',
  group_words o ws = Some o' →
  concat (snd <$> o') ≡ₚ concat (snd <$> o) ++ (word <$> ws).
Proof.
  induction ws as [|w ws IH]; intros o o' Hg; simpl in Hg.
  - injection Hg as <-. by rewrite app_nil_r.
  - destruct (group_word o w) as [o1|] eqn:Hw; [|done].
    apply group_word_set in Hw as ->. rewrite (IH _ _ Hg), set_append.
    by rewrite <- app_assoc.
Qed.

Lemma split_space_from_length s : ∀ acc,
  length (split_space_from acc s) = S (count_spaces s).
Proof.
  induction s as [|c r IH]; intros acc; [done|]. simpl.
  destruct (Ascii.eqb c " "); simpl; by rewrite IH.
Qed.

End Grouping.

(** X15: grouping loses no word and repeats none: the groups handed to the
    renderer, in the order of [Object.entries], hold the words of the message
    exactly once each, under pairwise distinct tags. *)
Theorem grouping_keeps_every_word (ws : list Word) (groups : JsObject.t) :
  group_words [] ws = Some groups →
  concat (snd <$> JsObject.entries groups) ≡ₚ word <$> ws
  ∧ NoDup (fst <$> JsObject.entries groups).
Proof.
  intros Hg. rewrite entries_perm. split.
  - by rewrite (group_words_keep ws [] groups Hg).
  - by destruct (group_words_spec ws [] groups Hg (NoDup_nil_2 (A:=string))).
Qed.

Lemma grouping_keeps_every_word_witness :
  concat (snd <$> JsObject.entries
            [("SPEAKER_2", ["I"; "have"; "a"; "cough"]); ("SPEAKER_1", ["okay"])])
  ≡ₚ word <$> default [] (words Sample.two_speakers).
Proof.
  refine (proj1 (grouping_keeps_every_word
                   (default [] (words Sample.two_speakers)) _ _)).
  reflexivity.
Defined.

(** X16: the threshold of the interim branch counts space characters: a message
    the handler takes asks for a debounced analysis exactly when its raw text
    holds four spaces or more. *)
Theorem interim_threshold_is_four_spaces (m : Message) :
  accepted m → is_final m = false →
  (∃ t, CallDetectDiseasesDebounced t ∈ onmessage_calls m)
  ↔ (4 ≤ count_spaces (default "" (text m)))%nat.
Proof.
  intros Hacc Hfinal. rewrite (accepted_calls m Hacc), Hfinal.
  unfold split_space. rewrite split_space_from_length. split.
  - intros [t [Ht _]%debounced_in_interim_calls]. apply Nat.leb_le in Ht. lia.
  - intros Hn. exists (default "" (text m)). apply debounced_in_interim_calls.
    split; [|done]. apply Nat.leb_le. lia.
Qed.

Lemma interim_threshold_is_four_spaces_witness :
  (∃ t, CallDetectDiseasesDebounced t ∈ onmessage_calls Sample.double_spaced)
  ↔ (4 ≤ count_spaces (default "" (text Sample.double_spaced)))%nat.
Proof.
  apply (interim_threshold_is_four_spaces Sample.double_spaced).
  - repeat split. vm_compute. eauto.
  - reflexivity.
Defined.

(** ** Audio frames *)

Section Audio.

Local Open Scope Z_scope.

Lemma wrap16_id z : -32768 <= z <= 32767 → wrap16 z = z.
Proof.
  intros Hz. unfold wrap16. destruct (Z.neg_nonneg_cases z) as [Hneg|Hpos].
  - replace (z mod 65536) with (z + 65536).
    + destruct (32768 <=? z + 65536) eqn:H; [lia|]. apply Z.leb_gt in H. lia.
    + apply (Z.mod_unique_pos _ _ (-1)); lia.
  - rewrite Z.mod_small by lia.
    destruct (32768 <=? z) eqn:H; [|done]. apply Z.leb_le in H. lia.
Qed.

Lemma truncate_mono (p q : Q) : (p <= q)%Q → truncate p <= truncate q.
Proof.
  unfold Qle, truncate. destruct p as [a b], q as [c d]. cbn [Qnum Qden].
  intros Hle.
  rewrite <- (Z.quot_mul_cancel_r a (Z.pos b) (Z.pos d)) by lia.
  rewrite <- (Z.quot_mul_cancel_r c (Z.pos d) (Z.pos b)) by lia.
  rewrite (Z.mul_comm (Z.pos d) (Z.pos b)). apply Z.quot_le_mono; lia.
Qed.

Lemma clamp_range q : (-32768 <= clamp q)%Q ∧ (clamp q <= 32767)%Q.
Proof.
  unfold clamp. destruct (Qle_bool q 32767) eqn:Hhi.
  - destruct (Qle_bool (-32768) q) eqn:Hlo.
    + by split; apply Qle_bool_iff.
    + by split.
  - by split.
Qed.

Lemma clamp_mono p q : (p <= q)%Q → (clamp p <= clamp q)%Q.
Proof.
  intros Hle. destruct (Qle_bool q 32767) eqn:Hq.
  - assert (Qle_bool p 32767 = true) as Hp.
    { apply Qle_bool_iff. apply Qle_bool_iff in Hq. by eapply Qle_trans. }
    unfold clamp. rewrite Hp, Hq. destruct (Qle_bool (-32768) p) eqn:Hp'.
    + assert (Qle_bool (-32768) q = true) as ->; [|done].
      apply Qle_bool_iff. apply Qle_bool_iff in Hp'. by eapply Qle_trans.
    + destruct (Qle_bool (-32768) q) eqn:Hq'; [by apply Qle_bool_iff|apply Qle_refl].
  - unfold clamp at 2. rewrite Hq. apply clamp_range.
Qed.

Lemma pcm16_finite q : pcm16 (Finite q) = truncate (clamp (q * 32767)).
Proof.
  unfold pcm16, scale, min_32767, max_minus_32768, clamp.
  destruct (Qle_bool (q * 32767) 32767) eqn:Hhi.
  - destruct (Qle_bool (-32768) (q * 32767)) eqn:Hlo; simpl.
    + apply wrap16_id. apply Qle_bool_iff in Hhi, Hlo.
      apply truncate_mono in Hhi, Hlo.
      change (truncate 32767) with 32767 in Hhi.
      change (truncate (-32768)) with (-32768) in Hlo. lia.
    + done.
  - done.
Qed.

Lemma pcm16_in_range x : -32768 <= pcm16 x <= 32767.
Proof.
  destruct x as [q|[]|]; [|by vm_compute..].
  rewrite pcm16_finite. destruct (clamp_range (q * 32767)) as [Hlo Hhi].
  apply truncate_mono in Hlo, Hhi.
  change (truncate 32767) with 32767 in Hhi.
  change (truncate (-32768)) with (-32768) in Hlo. lia.
Qed.

End Audio.

(** X17: every sample of a frame fits in 16 bits, whatever the input buffer
    holds, not-a-number and the infinities included; a frame has one sample
    per sample of the buffer. *)
Theorem pcm16_in_int16_range (inputData : list Float) :
  length (pcm16 <$> inputData) = length inputData
  ∧ Forall (λ z, (-32768 <= z <= 32767)%Z) (pcm16 <$> inputData).
Proof.
  split; [apply length_fmap|]. apply Forall_fmap, Forall_forall. intros x _.
  apply pcm16_in_range.
Qed.

(** X18: the conversion keeps the order of the samples: a louder sample never
    becomes a smaller number. Hence a sample of 1 or more is clipped to 32767
    and a sample in the unit range stays within 32767 of zero, -1 giving
    -32767 and not -32768. *)
Theorem pcm16_monotone (p q : Q) :
  (p <= q)%Q →
  (pcm16 (Finite p) <= pcm16 (Finite q))%Z
  ∧ ((1 <= p)%Q → pcm16 (Finite p) = 32767%Z)
  ∧ ((-1 <= p)%Q → (-32767 <= pcm16 (Finite p))%Z).
Proof.
  assert (∀ a b, (a <= b)%Q → (pcm16 (Finite a) <= pcm16 (Finite b))%Z) as Hmono.
  { intros a b Hab. rewrite !pcm16_finite. apply truncate_mono, clamp_mono.
    apply Qmult_le_compat_r; [done|by vm_compute]. }
  intros Hle. split; [by apply Hmono|]. split.
  - intros H1. apply Hmono in H1. change (pcm16 (Finite 1)) with 32767%Z in H1.
    destruct (pcm16_in_range (Finite p)). lia.
  - intros H1. apply Hmono in H1. by change (pcm16 (Finite (-1))) with (-32767)%Z in H1.
Qed.

Lemma pcm16_monotone_witness :
  (pcm16 (Finite (1 # 4)) <= pcm16 (Finite (1 # 2)))%Z.
Proof.
  refine (proj1 (pcm16_monotone (1 # 4) (1 # 2) _)). unfold Qle. simpl. lia.
Defined.

(** X19: once the recording is stopped no audio frame goes out on the socket
    any more: a buffer that still arrives is dropped and the count of frames
    does not move. *)
Theorem no_frame_after_stop (soap : SoapResponse) (rec : RecommendationsResponse)
    (st : AppState) (inputData : list Float) (audioChunkCount : nat) :
  onaudioprocess (wsRef (stopRecording soap rec st)) inputData audioChunkCount
  = (None, audioChunkCount).
Proof.
  assert (wsRef (stopRecording soap rec st)
          = wsRef (finalize_socket (disconnect_nodes st))) as ->.
  { unfold stopRecording. destruct (session st); [|done].
    by destruct (generation_history st soap rec
      (setIsLiveTranscribing false (setIsConnected false (setIsRecording false
         (finalize_socket (disconnect_nodes st)))))) as [_ ->]. }
  destruct (teardown_page st) as (_ & Hws & _). unfold onaudioprocess.
  destruct (wsRef (finalize_socket (disconnect_nodes st))) as [[state sess]|]; [|done].
  by destruct (Hws _ eq_refl) as [Hs|Hs]; simpl in Hs; subst state.
Qed.

(** ** The recording clock *)

Section Clock.

Lemma toString_inj a b : toString a = toString b → a = b.
Proof.
  unfold toString. intros H.
  apply (f_equal DecimalString.NilEmpty.uint_of_string) in H.
  rewrite !DecimalString.NilEmpty.usu in H. injection H as H.
  apply (f_equal Nat.of_uint) in H. by rewrite !DecimalNat.Unsigned.of_to in H.
Qed.

Lemma string_of_uint_colon_free d :
  colon_free (DecimalString.NilEmpty.string_of_uint d) = true.
Proof. induction d; simpl; done. Qed.

Lemma split_at_colon s1 : ∀ s2 r1 r2,
  colon_free s1 = true → colon_free s2 = true →
  s1 +:+ ":" +:+ r1 = s2 +:+ ":" +:+ r2 → s1 = s2 ∧ r1 = r2.
Proof.
  induction s1 as [|c s1 IH]; intros [|c' s2] r1 r2 H1 H2 Heq; simpl in *.
  - by injection Heq.
  - injection Heq as <- _. by rewrite Ascii.eqb_refl in H2.
  - injection Heq as -> _. by rewrite Ascii.eqb_refl in H1.
  - injection Heq as <- Heq. apply andb_true_iff in H1 as [_ H1].
    apply andb_true_iff in H2 as [_ H2].
    by destruct (IH s2 r1 r2 H1 H2 Heq) as [-> ->].
Qed.

Lemma length_append (s r : string) :
  String.length (s +:+ r) = String.length s + String.length r.
Proof. induction s as [|c s IH]; simpl; [done|by rewrite IH]. Qed.

Lemma seconds_field s t :
  s < 60 → t < 60 →
  String.length (padStart2 (toString s)) = 2
  ∧ (padStart2 (toString s) = padStart2 (toString t) → s = t).
Proof.
  intros Hs Ht.
  assert (forallb (λ s, Nat.eqb (String.length (padStart2 (toString s))) 2
                        && forallb (λ t, implb (String.eqb (padStart2 (toString s))
                                                  (padStart2 (toString t)))
                                           (Nat.eqb s t))
                              (seq 0 60))
            (seq 0 60) = true) as Hall by (by vm_compute).
  rewrite forallb_forall in Hall.
  destruct (proj1 (andb_true_iff _ _) (Hall s (proj2 (in_seq _ _ _) (conj (Nat.le_0_l _) Hs))))
    as [Hlen Hinj].
  split; [by apply Nat.eqb_eq|]. intros Heq.
  rewrite forallb_forall in Hinj.
  specialize (Hinj t (proj2 (in_seq _ _ _) (conj (Nat.le_0_l _) Ht))).
  rewrite Heq, String.eqb_refl in Hinj. by apply Nat.eqb_eq.
Qed.

End Clock.

(** X20: the clock shows the minutes, a colon and the seconds on exactly two
    digits, and two different times never look the same. *)
Theorem formatTime_unambiguous (a b : nat) :
  String.length (formatTime a) = String.length (toString (a / 60)) + 3
  ∧ (formatTime a = formatTime b → a = b).
Proof.
  assert (a mod 60 < 60 ∧ b mod 60 < 60) as [Ha Hb]
    by (split; apply Nat.mod_upper_bound; lia).
  destruct (seconds_field (a mod 60) (b mod 60) Ha Hb) as [Hlen Hinj].
  unfold formatTime. split.
  - rewrite !length_append, Hlen. simpl. lia.
  - intros Heq. apply split_at_colon in Heq as [Hm Hs];
      [|apply string_of_uint_colon_free..].
    apply toString_inj in Hm. apply Hinj in Hs.
    rewrite (Nat.div_mod_eq a 60), (Nat.div_mod_eq b 60). by rewrite Hm, Hs.
Qed.

Lemma formatTime_unambiguous_witness : 75 = 75.
Proof. apply (proj2 (formatTime_unambiguous 75 75)). reflexivity. Defined.

Example formatTime_75 : formatTime 75 = "1:15" ∧ formatTime 5 = "0:05".
Proof. split; reflexivity. Qed.

(** ** Session, socket and recording flag *)

Section Order.

(** The socket needs the session, the recording flag needs the socket. *)
Let in_order (st : AppState) : Prop :=
  (is_Some (wsRef st) → is_Some (session st))
  ∧ (isRecording st = true → is_Some (wsRef st)).

Lemma generation_order render soap rec st :
  let st' := generateRecommendations render rec (generateSOAP render soap st) in
  session st' = session st ∧ wsRef st' = wsRef st ∧ isRecording st' = isRecording st.
Proof.
  unfold generateRecommendations, generateSOAP.
  destruct (session render); [|done].
  destruct (no_transcript _); [done|].
  by destruct soap, rec as [| |[l|]].
Qed.

Lemma step_in_order st e : in_order st → in_order (step st e).
Proof.
  unfold in_order. intros [Hws Hrec].
  destruct e as [r|mic| |m|code| |id|r|soap rec]; simpl.
  - destruct r; simpl; split; eauto.
  - unfold startRecording. destruct (session st) as [s|] eqn:Hs;
      [destruct mic|]; simpl; rewrite ?Hs; split; eauto.
  - unfold with_readyState. destruct (wsRef st) as [[[] ?]|] eqn:Hw;
      simpl; rewrite ?Hw; split; eauto.
  - destruct (wsRef st) as [ws|] eqn:Hw; [|by rewrite Hw].
    pose proof (onmessage_page_frame (Some (ws_session ws)) m st) as H.
    injection H as -> _ _ _ -> _ _ _ -> _. by rewrite Hw.
  - unfold with_readyState. destruct (wsRef st) as [ws|] eqn:Hw;
      simpl; rewrite ?Hw; split; eauto.
  - destruct (wsRef st) as [ws|] eqn:Hw; simpl; rewrite ?Hw; split; eauto.
  - unfold fire_timer. destruct (filter _ (timers st)) as [|tm l]; [done|].
    unfold debounce_callback. by destruct (timer_session tm).
  - by destruct r as [| |[[|d ds]|]].
  - unfold stopRecording.
    destruct (teardown_frame st) as (Hsess & _ & Hsock).
    assert (is_Some (wsRef (finalize_socket (disconnect_nodes st)))
            → is_Some (session st)) as Hdown.
    { intros [ws' Hw']. apply Hws. rewrite Hw' in Hsock.
      destruct (wsRef st); [eauto|done]. }
    destruct (session st) as [s|] eqn:Hs.
    + match goal with
      | |- context [generateRecommendations st rec (generateSOAP st soap ?off)] =>
          destruct (generation_order st soap rec off) as (-> & -> & ->)
      end.
      simpl. rewrite Hsess. split; eauto. done.
    + simpl. rewrite Hsess. split; [|done]. intros H. by apply Hdown.
Qed.

Lemma reachable_in_order es : in_order (run initial es).
Proof.
  assert (∀ st, in_order st → in_order (run st es)) as H.
  { induction es as [|e es IH]; intros st Hst; [done|].
    simpl. by apply IH, step_in_order. }
  apply H. split; [by intros [? ?]|done].
Qed.

End Order.

(** X21: on a page run from its start, a socket exists only once a session has
    been created, and the recording flag is on only while a socket exists:
    recording never starts without a session. *)
Theorem recording_needs_session (es : list Event) :
  let st := run initial es in
  (is_Some (wsRef st) → is_Some (session st))
  ∧ (isRecording st = true → is_Some (wsRef st) ∧ is_Some (session st)).
Proof.
  intros st. destruct (reachable_in_order es) as [Hws Hrec]. fold st in Hws, Hrec.
  split; [done|]. intros H. split; [by apply Hrec|by apply Hws, Hrec].
Qed.

Lemma recording_needs_session_witness :
  is_Some (wsRef Sample.recording) ∧ is_Some (session Sample.recording).
Proof.
  apply (proj2 (recording_needs_session
                  [StartSession (SessionOk Sample.session1);
                   StartRecording MicrophoneGranted; WsOpen])).
  reflexivity.
Defined.

(** ** The life of the socket *)

(** X22: only [startRecording] makes a socket. Under any other event a page
    without a socket stays without one, and a socket keeps the session its
    handlers captured and never moves back in its life: once stopped or
    closed it is not opened again. *)
Theorem no_reconnection (st : AppState) (e : Event) :
  (∀ mic, e ≠ StartRecording mic) →
  match wsRef st with
  | None => wsRef (step st e) = None
  | Some ws =>
      ∃ ws', wsRef (step st e) = Some ws'
             ∧ ws_session ws' = ws_session ws
             ∧ (ready_rank (readyState ws) ≤ ready_rank (readyState ws'))%nat
  end.
Proof.
  intros He.
  destruct e as [r|mic| |m|code| |id|r|soap rec]; simpl.
  - destruct r; simpl; destruct (wsRef st); eauto.
  - by destruct (He mic).
  - unfold with_readyState. destruct (wsRef st) as [[[] ?]|] eqn:Hw; simpl;
      rewrite ?Hw; eauto. eexists. split; [done|]. simpl. split; [done|lia].
  - destruct (wsRef st) as [ws|] eqn:Hw; [|by rewrite Hw].
    pose proof (onmessage_page_frame (Some (ws_session ws)) m st) as H.
    injection H as _ _ _ _ _ _ _ _ -> _. rewrite Hw. eauto.
  - unfold with_readyState. destruct (wsRef st) as [[state sess]|] eqn:Hw; simpl;
      rewrite ?Hw; [|done]. eexists. split; [done|]. simpl. split; [done|].
    destruct state; simpl; lia.
  - destruct (wsRef st) as [ws|] eqn:Hw; simpl; rewrite Hw; eauto.
  - assert (wsRef (fire_timer id st) = wsRef st) as ->.
    { unfold fire_timer. destruct (filter _ (timers st)) as [|tm l]; [done|].
      unfold debounce_callback. by destruct (timer_session tm). }
    destruct (wsRef st); eauto.
  - assert (wsRef (detectDiseases_resume r st) = wsRef st) as ->
      by (by destruct r as [| |[[|d ds]|]]).
    destruct (wsRef st); eauto.
  - assert (wsRef (stopRecording soap rec st)
            = wsRef (finalize_socket (disconnect_nodes st))) as ->.
    { unfold stopRecording. destruct (session st); [|done].
      by destruct (generation_history st soap rec
        (setIsLiveTranscribing false (setIsConnected false (setIsRecording false
           (finalize_socket (disconnect_nodes st)))))) as [_ ->]. }
    unfold finalize_socket, disconnect_nodes.
    destruct (audioNodesRef st) as [[[] []]|]; simpl;
      destruct (wsRef st) as [[[] ?]|] eqn:Hw; simpl; rewrite ?Hw;
      try done; eexists; (split; [done|]); simpl; split; (done || lia).
Qed.

Lemma no_reconnection_witness :
  ∃ ws', wsRef (step Sample.recording (WsClosed 1006)) = Some ws'
         ∧ ws_session ws' = Sample.session1
         ∧ (ready_rank OPEN ≤ ready_rank (readyState ws'))%nat.
Proof.
  apply (no_reconnection Sample.recording (WsClosed 1006)). discriminate.
Defined.
